(** * Sparse binary operation by index intersection

    A shallow embedding of
    [aten/src/ATen/native/sparse/SparseBinaryOpIntersectionCommon.h]:
    [find_bound], [_sparse_binary_op_intersection_kernel_impl] and
    [_sparse_binary_op_intersection_kernel_out].

    Tensor entries are integers ([Z]); machine integers of the selected
    widths ([hash_t], [offset_t], [int]) are written with their two's
    complement wrap-around ([wrap]).  Index tensors ([index_t]) are 64-bit
    and hold non-negative positions below the number of nonzeros, so they
    are kept as plain numbers.  The parallel kernel launches are executed
    as sequential loops over the task index. *)

From Stdlib Require Import ZArith Lia List Bool Sorted Permutation Arith.
Import ListNotations.
Open Scope Z_scope.

(** ** Machine integers *)

Inductive width := W32 | W64.

Definition width_bits (w : width) : Z :=
  match w with W32 => 32 | W64 => 64 end.

(** Largest value of the signed type of width [w]. *)
Definition max_of (w : width) : Z := 2 ^ (width_bits w - 1) - 1.

(** Two's complement wrap-around into the signed type of width [w]. *)
Definition wrap (w : width) (z : Z) : Z :=
  (z + 2 ^ (width_bits w - 1)) mod 2 ^ (width_bits w) - 2 ^ (width_bits w - 1).

(** [std::numeric_limits<int>::max()] *)
Definition INT_MAX : Z := 2147483647.

(** ** Coordinates and the perfect hash *)

(** Lexicographic order on coordinates (columns of [indices]). *)
Fixpoint lex_lt (a b : list Z) : bool :=
  match a, b with
  | x :: a', y :: b' => (x <? y) || ((x =? y) && lex_lt a' b')
  | [], _ :: _ => true
  | _, [] => false
  end.

Fixpoint coord_eqb (a b : list Z) : bool :=
  match a, b with
  | x :: a', y :: b' => (x =? y) && coord_eqb a' b'
  | [], [] => true
  | _, _ => false
  end.

Definition prod (s : list Z) : Z := fold_right Z.mul 1 s.

(** Modelled from the spec: [contiguous_strides] (c10, not part of this
    file) gives the row-major strides of a shape: the stride of a
    dimension is the product of the sizes of the dimensions after it. *)
Fixpoint contiguous_strides (s : list Z) : list Z :=
  match s with
  | [] => []
  | _ :: r => prod r :: contiguous_strides r
  end.

(** The per-nonzero hash loop: [hash += dim_index * dim_hash_coeff] for
    [dim < sdim], every operation in [hash_t]. *)
Fixpoint hash_loop (hw : width) (coeffs idx : list Z) (h : Z) : Z :=
  match coeffs, idx with
  | k :: cs, i :: is => hash_loop hw cs is (wrap hw (h + wrap hw (wrap hw i * k)))
  | _, _ => h
  end.

Definition hash_of (hw : width) (coeffs idx : list Z) : Z := hash_loop hw coeffs idx 0.

(** [hash_coeffs]: the strides of the broadcasted sparse shape, copied into
    a [hash_t] tensor. *)
Definition hash_coeffs (hw : width) (bs : list Z) (sd : nat) : list Z :=
  map (wrap hw) (contiguous_strides (firstn sd bs)).

(** ** [find_bound] *)

(** One iteration of [while (count > 0)] per unit of fuel; the loop is
    started with fuel [last - first], which bounds [count]. *)
Fixpoint find_bound_loop (is_lower : bool) (l : list Z) (value : Z)
    (fuel first count : nat) : nat :=
  match fuel with
  | O => first
  | S fuel' =>
      if (0 <? count)%nat then
        let step := Nat.div count 2 in
        let it := (first + step)%nat in
        let x := nth it l 0 in
        if (if is_lower then x <? value else value >=? x)
        then find_bound_loop is_lower l value fuel' (S it) (count - (step + 1))
        else find_bound_loop is_lower l value fuel' first step
      else first
  end.

Definition find_bound (is_lower : bool) (l : list Z) (value : Z) : nat :=
  find_bound_loop is_lower l value (length l) 0 (length l).

(** ** Sorting the probe hashes *)

(** Modelled from the spec: [Tensor::sort] (not part of this file) returns
    the values in nondecreasing order and the permutation that maps each
    sorted position back to the original position. *)
Fixpoint insert_by_hash (p : Z * nat) (l : list (Z * nat)) : list (Z * nat) :=
  match l with
  | [] => [p]
  | q :: r => if fst p <=? fst q then p :: q :: r else q :: insert_by_hash p r
  end.

Definition sort_with_perm (h : list Z) : list Z * list Z :=
  let s := fold_right insert_by_hash [] (combine h (seq 0 (length h))) in
  (map fst s, map (fun p => Z.of_nat (snd p)) s).

(** ** Prefix sums and the gather offsets *)

(** [intersection_count.cumsum(-1, kOffset)]: inclusive prefix sums
    computed in [offset_t]. *)
Fixpoint cumsum_from (ow : width) (acc : Z) (l : list Z) : list Z :=
  match l with
  | [] => []
  | c :: r => let a := wrap ow (acc + wrap ow c) in a :: cumsum_from ow a r
  end.

Definition cumsum (ow : width) (l : list Z) : list Z := cumsum_from ow 0 l.

(** [intersection_nnz]: the last prefix sum, 0 for an empty source. *)
Definition intersection_nnz (ow : width) (shifted_offset : list Z) : Z :=
  match shifted_offset with
  | [] => 0
  | _ => last shifted_offset 0
  end.

(** [offset = shifted_offset - static_cast<offset_t>(count)] *)
Definition task_offset (ow : width) (count shifted : Z) : Z :=
  wrap ow (shifted - wrap ow count).

(** The output slots task [k] writes: [count] consecutive slots from its
    offset. *)
Definition task_slots (ow : width) (count shifted : Z) : list nat :=
  map (fun i => (Z.to_nat (task_offset ow count shifted) + i)%nat) (seq 0 (Z.to_nat count)).

Fixpoint all_task_slots (ow : width) (counts shifted : list Z) : list (list nat) :=
  match counts, shifted with
  | c :: cs, s :: ss => task_slots ow c s :: all_task_slots ow cs ss
  | _, _ => []
  end.

(** Writes into a buffer; a write out of range is undefined in the source
    and leaves the model's buffer unchanged. *)
Fixpoint set_nth {A} (l : list A) (i : nat) (x : A) : list A :=
  match l, i with
  | [], _ => []
  | _ :: r, O => x :: r
  | y :: r, S i' => y :: set_nth r i' x
  end.

(** [*ptr_out++ = x] for each [x] of [xs], starting at [off]. *)
Fixpoint write_run {A} (buf : list A) (off : nat) (xs : list A) : list A :=
  match xs with
  | [] => buf
  | x :: r => write_run (set_nth buf off x) (S off) r
  end.

(** The gather kernel's body for source nonzero [idx] (lines 416-446):
    it fills [selected_source], [selected_probably_coalesced] and the
    result indices from its offset on, [count] entries each. *)
Definition gather_task (hw ow : width) (argsort : list Z) (src_coord : list Z)
    (idx : nat) (count first_match_idx shifted : Z)
    (bufs : list Z * list Z * list (list Z)) : list Z * list Z * list (list Z) :=
  let '(sel_src, sel_pc, sel_idx) := bufs in
  let off := Z.to_nat (task_offset ow count shifted) in
  let n := Z.to_nat count in
  (write_run sel_src off (repeat (wrap hw (Z.of_nat idx)) n),
   write_run sel_pc off
     (map (fun i => wrap hw (nth (Z.to_nat first_match_idx + i) argsort 0)) (seq 0 n)),
   write_run sel_idx off (repeat src_coord n)).

(** The kernel launch over [source_idx], [intersection_count],
    [intersection_first_idx] and [shifted_offset], in task order. *)
Fixpoint gather_loop (hw ow : width) (argsort : list Z) (src_indices : list (list Z))
    (idx : nat) (counts firsts shifted : list Z)
    (bufs : list Z * list Z * list (list Z)) : list Z * list Z * list (list Z) :=
  match counts, firsts, shifted with
  | c :: cs, f :: fs, s :: ss =>
      gather_loop hw ow argsort src_indices (S idx) cs fs ss
        (gather_task hw ow argsort (nth idx src_indices []) idx c f s bufs)
  | _, _, _ => bufs
  end.

(** ** Broadcasting *)

Definition bcast_dim (a b : Z) : option Z :=
  if a =? b then Some a else if a =? 1 then Some b else if b =? 1 then Some a else None.

Fixpoint bcast_rev (a b : list Z) : option (list Z) :=
  match a, b with
  | [], _ => Some b
  | _, [] => Some a
  | x :: a', y :: b' =>
      match bcast_dim x y, bcast_rev a' b' with
      | Some d, Some r => Some (d :: r)
      | _, _ => None
      end
  end.

(** Modelled from the spec: [infer_size] (broadcasting-shape inference, not
    part of this file): shapes are aligned on their last dimension, sizes
    must agree or be 1; [None] is the raised error. *)
Definition infer_size (a b : list Z) : option (list Z) :=
  option_map (@rev Z) (bcast_rev (rev a) (rev b)).

(** ** Errors and the state of the output tensor *)

Inductive error :=
| PreconditionFailed   (** the [TORCH_CHECK] of [_sparse_binary_op_intersection_kernel_out] *)
| BroadcastFailed      (** raised by [infer_size] *)
| CastFailed           (** the [canCast] [TORCH_CHECK] *)
| DivisionByZero       (** integer division by zero (undefined behaviour) *)
| NegativeDimension.   (** [at::empty] with a negative size *)

(** ** Scalar types and the binary operator *)

(** Dtype rules of the dense tensor library: [at::result_type] and
    [canCast]. *)
Class DTypes (D : Type) := {
  canCast : D -> D -> bool;
  result_type : D -> D -> D
}.

(** Value rows: addition (used by [coalesce] to merge duplicates), the cast
    [.to(dtype)] and the value read by an out-of-range gather. *)
Class Values (V D : Type) := {
  vadd : V -> V -> V;
  vcast : D -> V -> V;
  vzero : V
}.

(** [binary_op_t]: [binary_op_t::apply] on value rows, and the rank of its
    result given the ranks of its two value tensors. *)
Class BinaryOp (V : Type) := {
  apply_op : V -> V -> V;
  apply_rank : nat -> nat -> nat
}.

Section Model.
Context {V D : Type} `{DTypes D} `{Values V D} `{BinaryOp V}.

(** A sparse COO tensor: [indices] holds one coordinate (a column of the
    [sparse_dim x nnz] index tensor) per nonzero, [values] one value row per
    nonzero. *)
Record sparse := mkSparse {
  is_sparse : bool;
  sizes : list Z;
  sparse_dim : nat;
  dense_dim : nat;
  indices : list (list Z);
  values : list V;
  coalesced : bool;
  dtype : D
}.

Definition nnz (t : sparse) : nat := length (indices t).

(** Modelled from the spec: [Tensor::coalesce] (not part of this file)
    returns a tensor whose coordinates are sorted ascending and unique, the
    values of duplicate coordinates being summed; a coalesced tensor is
    returned as it is. *)
Fixpoint coo_insert (c : list Z) (v : V) (acc : list (list Z * V)) : list (list Z * V) :=
  match acc with
  | [] => [(c, v)]
  | (c', v') :: r =>
      if lex_lt c c' then (c, v) :: acc
      else if coord_eqb c c' then (c', vadd v' v) :: r
      else (c', v') :: coo_insert c v r
  end.

Definition coalesce (t : sparse) : sparse :=
  if coalesced t then t
  else
    let kv := fold_left (fun acc cv => coo_insert (fst cv) (snd cv) acc)
                (combine (indices t) (values t)) [] in
    mkSparse (is_sparse t) (sizes t) (sparse_dim t) (dense_dim t)
      (map fst kv) (map snd kv) true (dtype t).

(** [x = is_commutative ? x_ : x_.coalesce()] *)
Definition prep (is_commutative : bool) (t : sparse) : sparse :=
  if is_commutative then t else coalesce t.

(** [std::accumulate(sizes, sizes + sparse_dim, 1, std::multiplies<int64_t>())]:
    the accumulator has the type of the initial value [1], an [int], so each
    [int64_t] product is converted back to [int]. *)
Definition accumulate_int (l : list Z) : Z :=
  fold_left (fun acc s => wrap W32 (acc * s)) l 1.

Definition MAX_COPIES_PER_THREAD : Z := 50.

(** The role selection (lines 104-143): returns
    [(probably_coalesced, source)]. *)
Definition select_roles (x y : sparse) : error + (sparse * sparse) :=
  if xorb (coalesced x) (coalesced y) then
    inr (if coalesced x then (x, y) else (y, x))
  else
    let '(larger, smaller) := if (nnz y <=? nnz x)%nat then (x, y) else (y, x) in
    let sparse_dim_numel := accumulate_int (firstn (sparse_dim larger) (sizes larger)) in
    if sparse_dim_numel =? 0 then inl DivisionByZero
    else
      let max_count_lower_bound := Z.quot (Z.of_nat (nnz larger)) sparse_dim_numel in
      if MAX_COPIES_PER_THREAD <? max_count_lower_bound
      then inr (coalesce larger, smaller)
      else inr (larger, smaller).

(** Lines 229-248: a coalesced probe keeps its hashes and the identity
    permutation, otherwise the hashes are sorted. *)
Definition sort_stage (probe : sparse) (h : list Z) : list Z * list Z :=
  if coalesced probe then (h, map Z.of_nat (seq 0 (length h)))
  else sort_with_perm h.

(** The fused hash and search kernel for one source coordinate: the pair
    [(intersection_count, intersection_first_idx)], both stored in [hash_t]. *)
Definition join_one (hw : width) (coeffs sorted_hash src_coord : list Z) : Z * Z :=
  let h := hash_of hw coeffs src_coord in
  let lb := find_bound true sorted_hash h in
  let ub := find_bound false sorted_hash h in
  (wrap hw (Z.of_nat ub - Z.of_nat lb), wrap hw (Z.of_nat lb)).

(** Lines 145-450: hashing, sorting, searching, prefix sums and the gather;
    the result is [(selected_source, selected_probably_coalesced,
    selected_source_sparse_indices)]. *)
Definition intersect_stage (hw ow : width) (bs : list Z) (probe source : sparse)
    : error + (list Z * list Z * list (list Z)) :=
  let coeffs := hash_coeffs hw bs (sparse_dim probe) in
  let probe_hash := map (hash_of hw coeffs) (indices probe) in
  let '(sorted_hash, argsort_hash) := sort_stage probe probe_hash in
  let matches := map (join_one hw coeffs sorted_hash) (indices source) in
  let counts := map fst matches in
  let firsts := map snd matches in
  let shifted := cumsum ow counts in
  let n := intersection_nnz ow shifted in
  if n <? 0 then inl NegativeDimension
  else
    inr (gather_loop hw ow argsort_hash (indices source) 0 counts firsts shifted
           (repeat 0 (Z.to_nat n), repeat 0 (Z.to_nat n), repeat [] (Z.to_nat n))).

(** [values.index_select(0, selected)] *)
Definition index_select (vals : list V) (sel : list Z) : list V :=
  map (fun i => nth (Z.to_nat i) vals vzero) sel.

(** The effects of the entry point: the output tensor [res] is the state,
    and a raised error keeps the state reached when it was raised. *)
Definition M (A : Type) : Type := sparse -> sparse * (error + A).

Definition ret {A} (a : A) : M A := fun s => (s, inr a).

Definition bind {A B} (m : M A) (f : A -> M B) : M B :=
  fun s => match m s with
           | (s', inl e) => (s', inl e)
           | (s', inr a) => f a s'
           end.

Definition lift {A} (r : error + A) : M A := fun s => (s, r).

Definition get : M sparse := fun s => (s, inr s).

Definition put (s : sparse) : M unit := fun _ => (s, inr tt).

(** [TORCH_CHECK(b, ...)] *)
Definition check (b : bool) (e : error) : M unit :=
  if b then ret tt else lift (inl e).

Local Notation "'let*' x ':=' m 'in' f" := (bind m (fun x => f))
  (at level 200, x name, m at level 100, f at level 200).

(** The result tensor installed by lines 452-481. *)
Definition assemble (res : sparse) (bs : list Z) (probe source : sparse)
    (sel_src sel_pc : list Z) (res_indices : list (list Z)) : sparse :=
  let selected_source_values := index_select (values source) sel_src in
  let selected_pc_values := index_select (values probe) sel_pc in
  let res_values := map (fun ab => vcast (dtype res) (apply_op (fst ab) (snd ab)))
                      (combine selected_source_values selected_pc_values) in
  let res_values_dim := apply_rank (S (dense_dim source)) (S (dense_dim probe)) in
  mkSparse (is_sparse res) bs (sparse_dim source) (res_values_dim - 1)
    res_indices res_values (coalesced source && coalesced probe) (dtype res).

(** [_sparse_binary_op_intersection_kernel_impl<kernel_t, binary_op_t, hash_t, offset_t>] *)
Definition kernel_impl (hw ow : width) (x_ y_ : sparse) (bs : list Z)
    (is_commutative : bool) : M unit :=
  let* res := get in
  let* _ := check (canCast (result_type (dtype x_) (dtype y_)) (dtype res)) CastFailed in
  let x := prep is_commutative x_ in
  let y := prep is_commutative y_ in
  let* roles := lift (select_roles x y) in
  let* sel := lift (intersect_stage hw ow bs (fst roles) (snd roles)) in
  let '(sel_src, sel_pc, res_indices) := sel in
  put (assemble res bs (fst roles) (snd roles) sel_src sel_pc res_indices).

(** The [TORCH_CHECK] of lines 493-498. *)
Definition precondition (x y : sparse) : bool :=
  is_sparse x && is_sparse y
  && (length (sizes x) =? length (sizes y))%nat
  && (sparse_dim x =? sparse_dim y)%nat
  && forallb (fun ab => fst ab =? snd ab)
       (combine (firstn (sparse_dim x) (sizes x)) (firstn (sparse_dim y) (sizes y)))
  && (length (firstn (sparse_dim x) (sizes x)) =? length (firstn (sparse_dim y) (sizes y)))%nat.

(** Lines 500-514: [(hash_t, offset_t)] widths; [_nnz()] and the products
    are [int64_t]. *)
Definition select_widths (bs : list Z) (sd : nat) (x_nnz y_nnz : Z) : width * width :=
  let max_hash_val := fold_left (fun acc d => wrap W64 (acc * d)) (firstn sd bs) 1 in
  let is_max_hash_32bits := max_hash_val <=? INT_MAX in
  let is_max_offset_32bits := wrap W64 (x_nnz * y_nnz) <=? INT_MAX in
  (if is_max_hash_32bits then W32 else W64, if is_max_offset_32bits then W32 else W64).

(** [_sparse_binary_op_intersection_kernel_out] *)
Definition kernel_out (x y : sparse) (is_commutative : bool) : M unit :=
  let* _ := check (precondition x y) PreconditionFailed in
  let* bs := lift (match infer_size (sizes x) (sizes y) with
                   | Some b => inr b
                   | None => inl BroadcastFailed
                   end) in
  let '(hw, ow) := select_widths bs (sparse_dim x) (Z.of_nat (nnz x)) (Z.of_nat (nnz y)) in
  kernel_impl hw ow x y bs is_commutative.

End Model.

(** ** A concrete instance: integer values, multiplication *)

Inductive ScalarType := Long | Float.

#[export] Instance scalar_dtypes : DTypes ScalarType := {
  canCast a b := match a, b with Float, Long => false | _, _ => true end;
  result_type a b := match a, b with Long, Long => Long | _, _ => Float end
}.

#[export] Instance z_values : Values Z ScalarType := {
  vadd := Z.add;
  vcast _ v := v;
  vzero := 0
}.

(** [mul]: value tensors broadcast to the larger rank. *)
#[export] Instance z_mul : BinaryOp Z := {
  apply_op := Z.mul;
  apply_rank := Nat.max
}.

Definition coo (sz : list Z) (sd dd : nat) (idx : list (list Z)) (vals : list Z)
    (c : bool) : @sparse Z ScalarType :=
  mkSparse true sz sd dd idx vals c Long.

Definition empty_res : @sparse Z ScalarType := coo [] 0 0 [] [] false.

(** The scenario of the spec: [x] coalesced with coordinates 0, 2, 4,
    [y] uncoalesced with coordinate 2 twice and 5; their product has two
    rows at coordinate 2. *)
Definition ex_x : @sparse Z ScalarType := coo [6] 1 0 [[0]; [2]; [4]] [1; 2; 3] true.

Definition ex_y : @sparse Z ScalarType := coo [6] 1 0 [[2]; [2]; [5]] [10; 20; 30] false.

Definition ex_r : @sparse Z ScalarType := coo [6] 1 0 [[2]; [2]] [20; 40] false.


Definition dup_y : @sparse Z ScalarType := coo [1] 1 0 [[0]] [1] false.

(** [0] twice against [0] once, both uncoalesced. *)
Definition pair_x : @sparse Z ScalarType := coo [1] 1 0 [[0]; [0]] [1; 1] false.

(** Disjoint coalesced inputs whose sparse shape has [2^32] elements. *)
Definition big_x : @sparse Z ScalarType := coo [65536; 65536] 2 0 [[0; 0]] [1] true.

Definition big_y : @sparse Z ScalarType := coo [65536; 65536] 2 0 [[1; 1]] [1] true.

(** An empty coalesced input of sparse shape [[0]]. *)
Definition empty_x : @sparse Z ScalarType := coo [0] 1 0 [] [] true.

(** A [float] input against a [long] one and a [long] output. *)
Definition float_x : @sparse Z ScalarType := mkSparse true [6] 1 0 [[0]] [1] true Float.

Definition long_y : @sparse Z ScalarType := coo [6] 1 0 [[0]] [1] true.

(** The result of [ex_x * long_y]. *)
Definition ex_r2 : @sparse Z ScalarType := coo [6] 1 0 [[0]] [1] true.

(** The result of the non-commutative [pair_x * dup_y]. *)
Definition pair_r : @sparse Z ScalarType := coo [1] 1 0 [[0]] [2] true.

(** An input of another dimensionality. *)
Definition hybrid_y : @sparse Z ScalarType := coo [6; 2] 1 1 [] [] true.

(** ** Specification-level notions *)

(** The hash as a mathematical sum [\sum_d idx[d] * coeffs[d]]. *)
Fixpoint hash_math (coeffs idx : list Z) : Z :=
  match coeffs, idx with
  | k :: cs, i :: is => i * k + hash_math cs is
  | _, _ => 0
  end.

(** A coordinate lies in the box of shape [s]. *)
Definition in_range (s c : list Z) : Prop :=
  Forall2 (fun ci si => 0 <= ci < si) c s.

Definition lexlt (a b : list Z) : Prop := lex_lt a b = true.

Definition coord_dec : forall a b : list Z, {a = b} + {a <> b} := list_eq_dec Z.eq_dec.

(** Inclusive prefix sums from [acc], over unbounded naturals. *)
Fixpoint prefix_sums (acc : nat) (l : list nat) : list nat :=
  match l with
  | [] => []
  | c :: r => (acc + c)%nat :: prefix_sums (acc + c) r
  end.

Section Validity.
Context {V D : Type}.

(** A well-formed sparse input: coordinates inside the sparse shape, one
    value row per coordinate, the coalesced invariant (coordinates strictly
    increasing), non-negative sizes, and a sparse shape whose number of
    elements is an [int64_t]. *)
Record valid (t : @sparse V D) : Prop := {
  valid_sparse : is_sparse t = true;
  valid_range : Forall (in_range (firstn (sparse_dim t) (sizes t))) (indices t);
  valid_values : length (values t) = length (indices t);
  valid_coalesced : coalesced t = true -> StronglySorted lexlt (indices t);
  valid_sizes : Forall (fun d => 0 <= d) (sizes t);
  valid_numel : prod (firstn (sparse_dim t) (sizes t)) <= max_of W64
}.

(** The positions below [nnz] fit the [hash_t] buffers
    ([intersection_first_idx], [selected_source], ...) of both widths. *)
Definition nnz_fits (t : @sparse V D) : Prop := Z.of_nat (nnz t) <= INT_MAX.

(** What the intersection stage needs of its two operands. *)
Record join_pre (hw ow : width) (bs : list Z) (probe source : @sparse V D) : Prop := {
  jp_probe_range : Forall (in_range (firstn (sparse_dim probe) bs)) (indices probe);
  jp_source_range : Forall (in_range (firstn (sparse_dim probe) bs)) (indices source);
  jp_hash_fits : prod (firstn (sparse_dim probe) bs) <= max_of hw;
  jp_probe_sorted : coalesced probe = true -> StronglySorted lexlt (indices probe);
  jp_probe_nnz : Z.of_nat (nnz probe) <= INT_MAX;
  jp_source_nnz : Z.of_nat (nnz source) <= INT_MAX;
  jp_offset_fits : Z.of_nat (nnz source) * Z.of_nat (nnz probe) <= max_of ow
}.

(** What the pipeline keeps of an operand: sparse dimension [sd],
    coordinates in the box [s], the coalesced invariant, [nnz] within
    [INT_MAX] and one value row per coordinate. *)
Record operand_ok (sd : nat) (s : list Z) (t : @sparse V D) : Prop := {
  op_dim : sparse_dim t = sd;
  op_range : Forall (in_range s) (indices t);
  op_sorted : coalesced t = true -> StronglySorted lexlt (indices t);
  op_nnz : Z.of_nat (nnz t) <= INT_MAX;
  op_values : length (values t) = length (indices t)
}.

End Validity.

(** * Proofs *)

(** ** Machine integers *)

Lemma wrap_id (w : width) (z : Z) :
  - 2 ^ (width_bits w - 1) <= z <= max_of w -> wrap w z = z.
Proof.
  intros Hz. unfold wrap, max_of in *.
  assert (Hp : 2 ^ width_bits w = 2 * 2 ^ (width_bits w - 1)).
  { rewrite <- Z.pow_succ_r by (destruct w; simpl; lia). f_equal; lia. }
  rewrite Hp, Z.mod_small by lia. lia.
Qed.

Lemma max_of_ge_int (w : width) : INT_MAX <= max_of w.
Proof. destruct w; vm_compute; congruence. Qed.

Lemma wrap_small (w : width) (z : Z) : 0 <= z <= INT_MAX -> wrap w z = z.
Proof.
  intros Hz. apply wrap_id. pose proof (max_of_ge_int w).
  split; [|lia]. assert (0 < 2 ^ (width_bits w - 1)) by (apply Z.pow_pos_nonneg; destruct w; simpl; lia).
  lia.
Qed.

(** ** Sorted lists *)

Lemma sorted_nth (l : list Z) (i j : nat) :
  Sorted Z.le l -> (i <= j < length l)%nat -> nth i l 0 <= nth j l 0.
Proof.
  intros Hs. apply Sorted_StronglySorted in Hs; [|exact Z.le_trans].
  revert i j. induction Hs as [|a l Hs IH Hf]; intros i j Hij; simpl in *; [lia|].
  destruct i as [|i], j as [|j]; try lia.
  - rewrite Forall_forall in Hf. apply Hf, nth_In. lia.
  - apply IH. lia.
Qed.

(** ** [find_bound] *)

Definition fb_pred (is_lower : bool) (value x : Z) : bool :=
  if is_lower then x <? value else value >=? x.

Lemma find_bound_loop_inv (is_lower : bool) (l : list Z) (value : Z) :
  (forall i j, (i <= j < length l)%nat ->
     fb_pred is_lower value (nth j l 0) = true -> fb_pred is_lower value (nth i l 0) = true) ->
  forall fuel first count,
  (count <= fuel)%nat -> (first + count <= length l)%nat ->
  (forall i, (i < first)%nat -> fb_pred is_lower value (nth i l 0) = true) ->
  (forall i, (first + count <= i < length l)%nat -> fb_pred is_lower value (nth i l 0) = false) ->
  let r := find_bound_loop is_lower l value fuel first count in
  (r <= length l)%nat /\
  (forall i, (i < r)%nat -> fb_pred is_lower value (nth i l 0) = true) /\
  (forall i, (r <= i < length l)%nat -> fb_pred is_lower value (nth i l 0) = false).
Proof.
  intros Hmono fuel. induction fuel as [|fuel IH]; intros first count Hc Hlen Hlo Hhi;
    cbn [find_bound_loop]; cbv zeta.
  - assert (count = 0%nat) by lia. subst count.
    split; [lia|]. split; [exact Hlo|]. intros i Hi. apply Hhi. lia.
  - destruct (Nat.ltb_spec 0 count) as [Hpos|Hz].
    + pose proof (Nat.div_mod count 2 ltac:(lia)) as Hdm.
      pose proof (Nat.mod_upper_bound count 2 ltac:(lia)) as Hmu.
      set (step := Nat.div count 2) in *.
      fold (fb_pred is_lower value (nth (first + step) l 0)).
      destruct (fb_pred is_lower value (nth (first + step) l 0)) eqn:Hp.
      * apply IH; try lia.
        -- intros i Hi. apply (Hmono i (first + step)%nat); [lia|exact Hp].
        -- intros i Hi. apply Hhi. lia.
      * apply IH; try lia.
        -- exact Hlo.
        -- intros i Hi. destruct (fb_pred is_lower value (nth i l 0)) eqn:Hq; [|reflexivity].
           rewrite (Hmono (first + step)%nat i ltac:(lia) Hq) in Hp. discriminate.
    + assert (count = 0%nat) by lia. subst count.
      split; [lia|]. split; [exact Hlo|]. intros i Hi. apply Hhi. lia.
Qed.

Lemma find_bound_spec (is_lower : bool) (l : list Z) (value : Z) :
  Sorted Z.le l ->
  let r := find_bound is_lower l value in
  (r <= length l)%nat /\
  (forall i, (i < r)%nat -> fb_pred is_lower value (nth i l 0) = true) /\
  (forall i, (r <= i < length l)%nat -> fb_pred is_lower value (nth i l 0) = false).
Proof.
  intros Hs. apply find_bound_loop_inv; [| lia | lia | intros i Hi; lia | intros i Hi; lia].
  intros i j Hij Hj. pose proof (sorted_nth l i j Hs Hij).
  destruct is_lower; simpl in *; rewrite ?Z.ltb_lt, ?Z.geb_le in *; lia.
Qed.

Lemma find_bound_lower (l : list Z) (value : Z) : Sorted Z.le l ->
  let lb := find_bound true l value in
  (lb <= length l)%nat /\ (forall i, (i < lb)%nat -> nth i l 0 < value) /\
  (forall i, (lb <= i < length l)%nat -> value <= nth i l 0).
Proof.
  intros Hs. destruct (find_bound_spec true l value Hs) as (H1 & H2 & H3); simpl in *.
  split; [exact H1|]. split.
  - intros i Hi. apply Z.ltb_lt, H2, Hi.
  - intros i Hi. apply Z.ltb_ge, H3, Hi.
Qed.

Lemma find_bound_upper (l : list Z) (value : Z) : Sorted Z.le l ->
  let ub := find_bound false l value in
  (ub <= length l)%nat /\ (forall i, (i < ub)%nat -> nth i l 0 <= value) /\
  (forall i, (ub <= i < length l)%nat -> value < nth i l 0).
Proof.
  intros Hs. destruct (find_bound_spec false l value Hs) as (H1 & H2 & H3); simpl in *.
  split; [exact H1|]. split.
  - intros i Hi. apply Z.geb_le, H2, Hi.
  - intros i Hi. specialize (H3 i Hi). rewrite Z.geb_leb in H3. apply Z.leb_gt, H3.
Qed.

(** The matching span of a sorted array: [lb <= t < ub] exactly at the
    positions holding [value]. *)
Lemma find_bound_span (l : list Z) (value : Z) : Sorted Z.le l ->
  let lb := find_bound true l value in
  let ub := find_bound false l value in
  (lb <= ub <= length l)%nat /\
  (forall t, (lb <= t < ub)%nat <-> (t < length l)%nat /\ nth t l 0 = value).
Proof.
  intros Hs. cbv zeta.
  destruct (find_bound_lower l value Hs) as (L1 & L2 & L3).
  destruct (find_bound_upper l value Hs) as (U1 & U2 & U3).
  set (lb := find_bound true l value) in *. set (ub := find_bound false l value) in *.
  assert (Hle : (lb <= ub)%nat).
  { destruct (Nat.le_gt_cases lb ub) as [|Hgt]; [assumption|].
    specialize (L2 ub Hgt). specialize (U3 ub ltac:(lia)). lia. }
  split; [lia|]. intros t; split.
  - intros Ht. specialize (U2 t ltac:(lia)). specialize (L3 t ltac:(lia)). split; [lia|lia].
  - intros [Ht Hv]. destruct (Nat.lt_ge_cases t lb) as [Hlt|Hge].
    + specialize (L2 t Hlt). lia.
    + destruct (Nat.lt_ge_cases t ub) as [Hlt'|Hge']; [lia|].
      specialize (U3 t ltac:(lia)). lia.
Qed.

Lemma join_one_exact (l : list Z) (hw : width) (coeffs src_coord : list Z) :
  Sorted Z.le l -> Z.of_nat (length l) <= INT_MAX ->
  join_one hw coeffs l src_coord =
    (Z.of_nat (find_bound false l (hash_of hw coeffs src_coord))
     - Z.of_nat (find_bound true l (hash_of hw coeffs src_coord)),
     Z.of_nat (find_bound true l (hash_of hw coeffs src_coord))).
Proof.
  intros Hs Hlen.
  destruct (find_bound_span l (hash_of hw coeffs src_coord) Hs) as [[Hle1 Hle2] _].
  unfold join_one. rewrite !wrap_small by lia. reflexivity.
Qed.

(** C5. [find_bound] with [is_lower = true] returns the first position of a
    nondecreasing array whose element is [>= value], with
    [is_lower = false] the first position whose element is [> value]; the
    fused search kernel stores [count = upper - lower] and
    [first_match_offset = lower], and these delimit exactly the positions
    of the sorted hashes equal to the source's hash. *)
Theorem find_bound_correct (l : list Z) :
  Sorted Z.le l -> Z.of_nat (length l) <= INT_MAX ->
  (forall value,
     let lb := find_bound true l value in
     let ub := find_bound false l value in
     (lb <= length l)%nat /\ (forall i, (i < lb)%nat -> nth i l 0 < value) /\
     ((lb < length l)%nat -> value <= nth lb l 0) /\
     (ub <= length l)%nat /\ (forall i, (i < ub)%nat -> nth i l 0 <= value) /\
     ((ub < length l)%nat -> value < nth ub l 0)) /\
  (forall hw coeffs src_coord,
     let value := hash_of hw coeffs src_coord in
     let lb := find_bound true l value in
     let ub := find_bound false l value in
     join_one hw coeffs l src_coord = (Z.of_nat ub - Z.of_nat lb, Z.of_nat lb) /\
     (forall t, (lb <= t < lb + (ub - lb))%nat <-> (t < length l)%nat /\ nth t l 0 = value)).
Proof.
  intros Hs Hlen. split.
  - intros value.
    destruct (find_bound_lower l value Hs) as (L1 & L2 & L3).
    destruct (find_bound_upper l value Hs) as (U1 & U2 & U3).
    split; [exact L1|]. split; [exact L2|]. split; [intros H; apply L3; lia|].
    split; [exact U1|]. split; [exact U2|]. intros H; apply U3; lia.
  - intros hw coeffs src_coord. cbv zeta.
    destruct (find_bound_span l (hash_of hw coeffs src_coord) Hs) as [[Hle1 Hle2] Hspan].
    split.
    + apply join_one_exact; assumption.
    + intros t. rewrite <- Hspan. lia.
Qed.

(** ** The perfect hash *)

Lemma wrap_nonneg (w : width) (z : Z) : 0 <= z <= max_of w -> wrap w z = z.
Proof.
  intros Hz. apply wrap_id. split; [|lia].
  assert (0 < 2 ^ (width_bits w - 1)) by (apply Z.pow_pos_nonneg; destruct w; simpl; lia). lia.
Qed.

Lemma prod_cons (s0 : Z) (s : list Z) : prod (s0 :: s) = s0 * prod s.
Proof. reflexivity. Qed.

Lemma hash_math_strides_cons (s0 : Z) (s : list Z) (c0 : Z) (c : list Z) :
  hash_math (contiguous_strides (s0 :: s)) (c0 :: c) = c0 * prod s + hash_math (contiguous_strides s) c.
Proof. reflexivity. Qed.

(** The linear offset of an in-range coordinate lies in [[0, prod s)]. *)
Lemma hash_math_range (s c : list Z) :
  in_range s c -> 1 <= prod s /\ 0 <= hash_math (contiguous_strides s) c <= prod s - 1.
Proof.
  unfold in_range. intros Hr. induction Hr as [|c0 s0 c s Hc Hr IH].
  - simpl. lia.
  - rewrite hash_math_strides_cons, prod_cons. destruct IH as [IH1 IH2]. split; nia.
Qed.

(** The [hash_t] hash loop computes the linear offset when the box fits. *)
Lemma hash_loop_exact (hw : width) (M : Z) (s c : list Z) (h : Z) :
  M <= max_of hw -> in_range s c -> 0 <= h -> h + prod s <= M ->
  hash_loop hw (map (wrap hw) (contiguous_strides s)) c h = h + hash_math (contiguous_strides s) c.
Proof.
  intros HM Hr. revert h. unfold in_range in Hr.
  induction Hr as [|c0 s0 c s Hc Hr IH]; intros h Hh Hb.
  - simpl. lia.
  - assert (Hin : in_range s c) by exact Hr.
    destruct (hash_math_range s c Hin) as [Hp Hl].
    rewrite prod_cons in Hb.
    cbn [contiguous_strides map hash_loop hash_math].
    assert (Hs : prod s <= s0 * prod s) by nia.
    rewrite (wrap_nonneg hw (prod s)) by lia.
    rewrite (wrap_nonneg hw c0) by nia.
    rewrite (wrap_nonneg hw (c0 * prod s)) by nia.
    rewrite (wrap_nonneg hw (h + c0 * prod s)) by nia.
    rewrite IH by nia. lia.
Qed.

Lemma hash_of_exact (hw : width) (s c : list Z) :
  prod s <= max_of hw -> in_range s c ->
  hash_of hw (map (wrap hw) (contiguous_strides s)) c = hash_math (contiguous_strides s) c.
Proof.
  intros HM Hr. unfold hash_of. rewrite (hash_loop_exact hw (prod s)); lia || auto.
Qed.

(** Lexicographic order is the order of linear offsets. *)
Lemma hash_math_lex (s c1 c2 : list Z) :
  in_range s c1 -> in_range s c2 ->
  (lex_lt c1 c2 = true <-> hash_math (contiguous_strides s) c1 < hash_math (contiguous_strides s) c2) /\
  (hash_math (contiguous_strides s) c1 = hash_math (contiguous_strides s) c2 -> c1 = c2).
Proof.
  revert c1 c2. induction s as [|s0 s IH]; intros c1 c2 H1 H2.
  - inversion H1; inversion H2; subst. simpl. split; [split; [discriminate|lia]|reflexivity].
  - inversion H1 as [|a s0' r1 s' Ha Hr1]; subst.
    inversion H2 as [|b s0'' r2 s'' Hb Hr2]; subst.
    destruct (hash_math_range s r1 Hr1) as [Hp Hl1].
    destruct (hash_math_range s r2 Hr2) as [_ Hl2].
    destruct (IH r1 r2 Hr1 Hr2) as [IHlt IHeq].
    rewrite !hash_math_strides_cons. simpl lex_lt.
    destruct (Z.lt_trichotomy a b) as [Hab|[Hab|Hab]].
    + assert (a * prod s + prod s <= b * prod s) by nia.
      rewrite (proj2 (Z.ltb_lt a b) Hab). simpl.
      split; [split; [intros _; lia|reflexivity]|intros; lia].
    + subst b. rewrite Z.ltb_irrefl, Z.eqb_refl. simpl.
      split; [rewrite IHlt; lia|].
      intros Heq. f_equal. apply IHeq. lia.
    + assert (b * prod s + prod s <= a * prod s) by nia.
      rewrite (proj2 (Z.ltb_ge a b) ltac:(lia)), (proj2 (Z.eqb_neq a b) ltac:(lia)). simpl.
      split; [split; [discriminate|lia]|intros; lia].
Qed.

Lemma sorted_hashes (s : list Z) (l : list (list Z)) :
  Forall (in_range s) l -> StronglySorted lexlt l ->
  Sorted Z.le (map (hash_math (contiguous_strides s)) l).
Proof.
  intros Hr Hs. apply StronglySorted_Sorted.
  induction Hs as [|a l Hs IH Hf]; simpl; constructor.
  - apply IH. inversion Hr; assumption.
  - inversion Hr as [|? ? Ha Hl]; subst.
    rewrite Forall_forall in *. intros y Hy. apply in_map_iff in Hy as (c & <- & Hc).
    apply Z.lt_le_incl, (proj1 (hash_math_lex s a c Ha (Hl c Hc))), Hf, Hc.
Qed.

Section Proofs.
Context {V D : Type} {HD : DTypes D} {HV : Values V D} {HB : BinaryOp V}.

(** C4. For every broadcasted sparse shape [s], the hash
    [coord -> \sum_d coord[d] * stride[d]] with the row-major strides of [s]
    is injective on the coordinates of the box [s] and orders them
    lexicographically; hence the [hash_t] hashes of a coalesced probe are
    already nondecreasing and the sort stage returns them unchanged with
    the identity permutation. *)
Theorem hash_perfect_and_monotone (bs : list Z) (sd : nat) :
  let s := firstn sd bs in
  (forall c1 c2, in_range s c1 -> in_range s c2 ->
     hash_math (contiguous_strides s) c1 = hash_math (contiguous_strides s) c2 -> c1 = c2) /\
  (forall c1 c2, in_range s c1 -> in_range s c2 ->
     (lex_lt c1 c2 = true <->
      hash_math (contiguous_strides s) c1 < hash_math (contiguous_strides s) c2)) /\
  (forall hw (probe : @sparse V D),
     sparse_dim probe = sd -> prod s <= max_of hw -> coalesced probe = true ->
     Forall (in_range s) (indices probe) -> StronglySorted lexlt (indices probe) ->
     let h := map (hash_of hw (hash_coeffs hw bs (sparse_dim probe))) (indices probe) in
     h = map (hash_math (contiguous_strides s)) (indices probe) /\
     Sorted Z.le h /\
     sort_stage probe h = (h, map Z.of_nat (seq 0 (length h)))).
Proof.
  cbv zeta. split; [|split].
  - intros c1 c2 H1 H2. apply (hash_math_lex _ c1 c2 H1 H2).
  - intros c1 c2 H1 H2. apply (hash_math_lex _ c1 c2 H1 H2).
  - intros hw probe Hsd Hp Hc Hr Hs.
    assert (Hh : map (hash_of hw (hash_coeffs hw bs (sparse_dim probe))) (indices probe)
                 = map (hash_math (contiguous_strides (firstn sd bs))) (indices probe)).
    { apply map_ext_in. intros c Hin. unfold hash_coeffs. rewrite Hsd.
      apply hash_of_exact; [exact Hp|]. rewrite Forall_forall in Hr. apply Hr, Hin. }
    split; [exact Hh|]. split.
    + rewrite Hh. apply sorted_hashes; assumption.
    + unfold sort_stage. rewrite Hc. reflexivity.
Qed.

(** ** The sort stage *)

Lemma insert_by_hash_perm (p : Z * nat) (l : list (Z * nat)) :
  Permutation (insert_by_hash p l) (p :: l).
Proof.
  induction l as [|q r IH]; simpl; [reflexivity|].
  destruct (fst p <=? fst q); [reflexivity|].
  rewrite IH. apply perm_swap.
Qed.

Lemma insert_by_hash_hd (p q : Z * nat) (l : list (Z * nat)) :
  HdRel (fun a b => fst a <= fst b) q l -> fst q <= fst p ->
  HdRel (fun a b => fst a <= fst b) q (insert_by_hash p l).
Proof.
  intros Hh Hq. destruct l as [|r l]; simpl; [constructor; exact Hq|].
  destruct (fst p <=? fst r); constructor; [exact Hq|]. inversion Hh; assumption.
Qed.

Lemma insert_by_hash_sorted (p : Z * nat) (l : list (Z * nat)) :
  Sorted (fun a b => fst a <= fst b) l ->
  Sorted (fun a b => fst a <= fst b) (insert_by_hash p l).
Proof.
  induction l as [|q r IH]; intros Hs; simpl; [repeat constructor|].
  destruct (Z.leb_spec (fst p) (fst q)) as [Hle|Hgt].
  - constructor; [exact Hs|constructor; exact Hle].
  - inversion Hs as [|? ? Hr Hh]; subst. constructor; [apply IH, Hr|].
    apply insert_by_hash_hd; [exact Hh|lia].
Qed.

Lemma sorted_map_fst (s : list (Z * nat)) :
  Sorted (fun a b => fst a <= fst b) s -> Sorted Z.le (map fst s).
Proof.
  induction 1 as [|a l Hs IH Hh]; simpl; constructor; [exact IH|].
  inversion Hh; simpl; constructor; assumption.
Qed.

Lemma combine_seq_in (h : list Z) (k : nat) (a : Z) (j : nat) :
  In (a, j) (combine h (seq k (length h))) ->
  (k <= j < k + length h)%nat /\ a = nth (j - k) h 0.
Proof.
  revert k. induction h as [|b h IH]; intros k Hin; simpl in *; [contradiction|].
  destruct Hin as [Heq|Hin].
  - inversion Heq; subst. rewrite Nat.sub_diag. split; [lia|reflexivity].
  - destruct (IH (S k) Hin) as [Hj Ha]. split; [lia|].
    replace (j - k)%nat with (S (j - S k)) by lia. exact Ha.
Qed.

Lemma map_snd_combine_seq (h : list Z) (k : nat) :
  map snd (combine h (seq k (length h))) = seq k (length h).
Proof.
  revert k. induction h as [|b h IH]; intros k; simpl; [reflexivity|]. f_equal. apply IH.
Qed.

(** Both branches of the sort stage produce a sorted array and a
    permutation that maps each sorted position to the position of the same
    hash. *)
Lemma sort_stage_ok (probe : @sparse V D) (h sorted argsort : list Z) :
  (coalesced probe = true -> Sorted Z.le h) ->
  sort_stage probe h = (sorted, argsort) ->
  exists perm,
    argsort = map Z.of_nat perm /\ length sorted = length h /\ length perm = length h /\
    Sorted Z.le sorted /\ Permutation perm (seq 0 (length h)) /\
    (forall t, (t < length h)%nat -> nth t sorted 0 = nth (nth t perm 0%nat) h 0).
Proof.
  unfold sort_stage. intros Hsorted Heq. destruct (coalesced probe).
  - injection Heq as <- <-. exists (seq 0 (length h)).
    split; [reflexivity|]. rewrite length_seq.
    split; [reflexivity|]. split; [reflexivity|]. split; [apply Hsorted; reflexivity|].
    split; [reflexivity|]. intros t Ht. rewrite seq_nth by exact Ht. reflexivity.
  - unfold sort_with_perm in Heq. injection Heq as <- <-.
    set (L := combine h (seq 0 (length h))).
    set (s := fold_right insert_by_hash [] L).
    assert (Hperm : Permutation s L).
    { unfold s. clear. induction L as [|p L IH]; simpl; [reflexivity|].
      rewrite insert_by_hash_perm. constructor. exact IH. }
    assert (Hlen : length L = length h).
    { unfold L. rewrite length_combine, length_seq. lia. }
    exists (map snd s). rewrite map_map. split; [reflexivity|].
    rewrite !length_map, (Permutation_length Hperm), Hlen.
    split; [reflexivity|]. split; [reflexivity|]. split.
    + apply sorted_map_fst. unfold s. clear. induction L as [|p L IH]; simpl.
      * constructor.
      * apply insert_by_hash_sorted, IH.
    + split.
      * rewrite <- (map_snd_combine_seq h 0). apply Permutation_map, Hperm.
      * intros t Ht. rewrite (nth_indep (map fst s) 0 (fst (0, 0%nat))), map_nth
          by (rewrite length_map, (Permutation_length Hperm), Hlen; exact Ht).
        rewrite (nth_indep (map snd s) 0%nat (snd (0, 0%nat))), map_nth
          by (rewrite length_map, (Permutation_length Hperm), Hlen; exact Ht).
        assert (Hin : In (nth t s (0, 0%nat)) L).
        { apply (Permutation_in _ Hperm), nth_In. rewrite (Permutation_length Hperm), Hlen. exact Ht. }
        destruct (nth t s (0, 0%nat)) as [a j]. simpl.
        destruct (combine_seq_in h 0 a j Hin) as [_ Ha]. rewrite Ha. f_equal. lia.
Qed.

(** ** Prefix sums *)

Lemma cumsum_exact (ow : width) (acc : nat) (cnts : list nat) :
  Z.of_nat (acc + list_sum cnts) <= max_of ow ->
  cumsum_from ow (Z.of_nat acc) (map Z.of_nat cnts) = map Z.of_nat (prefix_sums acc cnts).
Proof.
  revert acc. induction cnts as [|c r IH]; intros acc Hb; simpl in *; [reflexivity|].
  rewrite (wrap_nonneg ow (Z.of_nat c)) by lia.
  rewrite (wrap_nonneg ow (Z.of_nat acc + Z.of_nat c)) by lia.
  rewrite <- Nat2Z.inj_add. f_equal. apply IH. lia.
Qed.

Lemma last_prefix_sums (acc c : nat) (r : list nat) (d : nat) :
  last (prefix_sums acc (c :: r)) d = (acc + list_sum (c :: r))%nat.
Proof.
  revert acc c. induction r as [|c' r IH]; intros acc c; [simpl; lia|].
  change (last (prefix_sums (acc + c) (c' :: r)) d = (acc + list_sum (c :: c' :: r))%nat).
  rewrite IH. simpl. lia.
Qed.

Lemma last_map_of {A B} (f : A -> B) (l : list A) (d : A) :
  last (map f l) (f d) = f (last l d).
Proof.
  induction l as [|a l IH]; [reflexivity|].
  destruct l as [|b l]; [reflexivity|]. exact IH.
Qed.

Lemma intersection_nnz_exact (ow : width) (cnts : list nat) :
  intersection_nnz ow (map Z.of_nat (prefix_sums 0 cnts)) = Z.of_nat (list_sum cnts).
Proof.
  destruct cnts as [|c r]; [reflexivity|]. unfold intersection_nnz.
  change (map Z.of_nat (prefix_sums 0 (c :: r))) with
    (Z.of_nat (0 + c) :: map Z.of_nat (prefix_sums (0 + c) r)).
  rewrite <- map_cons.
  change ((0 + c)%nat :: prefix_sums (0 + c) r) with (prefix_sums 0 (c :: r)).
  change 0 with (Z.of_nat 0%nat) at 2. rewrite last_map_of.
  rewrite last_prefix_sums. reflexivity.
Qed.

(** ** The gather stage *)

Lemma set_nth_app {A} (P S : list A) (x y : A) :
  set_nth (P ++ y :: S) (length P) x = P ++ x :: S.
Proof. induction P as [|p P IH]; simpl; [reflexivity|]. rewrite IH. reflexivity. Qed.

Lemma write_run_app {A} (xs P R : list A) :
  (length xs <= length R)%nat ->
  write_run (P ++ R) (length P) xs = P ++ xs ++ skipn (length xs) R.
Proof.
  revert P R. induction xs as [|x r IH]; intros P R Hl; [reflexivity|].
  destruct R as [|y R]; simpl in Hl; [lia|].
  cbn [write_run]. rewrite set_nth_app.
  replace (P ++ x :: R) with ((P ++ [x]) ++ R) by (rewrite <- app_assoc; reflexivity).
  replace (S (length P)) with (length (P ++ [x])) by (rewrite length_app; simpl; lia).
  rewrite IH by lia. rewrite <- app_assoc. reflexivity.
Qed.

Lemma write_run_at {A} (acc : nat) (xs P R : list A) :
  length P = acc -> (length xs <= length R)%nat ->
  write_run (P ++ R) acc xs = P ++ xs ++ skipn (length xs) R.
Proof. intros <-. apply write_run_app. Qed.

Lemma list_sum_seq_cons (F : nat -> nat) (idx n : nat) :
  list_sum (map F (seq idx (S n))) = (F idx + list_sum (map F (seq (S idx) n)))%nat.
Proof. reflexivity. Qed.

(** The tasks of the gather kernel, run one after the other, fill the
    buffers with the concatenation of their runs when every offset is the
    exclusive prefix sum of the counts. *)
Lemma gather_loop_concat (hw ow : width) (argsort : list Z) (sc : list (list Z))
    (F G : nat -> nat) (n : nat) :
  forall idx acc (P1 P2 : list Z) (P3 : list (list Z)) S1 S2 S3,
  length P1 = acc -> length P2 = acc -> length P3 = acc ->
  length S1 = list_sum (map F (seq idx n)) ->
  length S2 = list_sum (map F (seq idx n)) ->
  length S3 = list_sum (map F (seq idx n)) ->
  Z.of_nat (acc + list_sum (map F (seq idx n))) <= max_of ow ->
  gather_loop hw ow argsort sc idx
    (map (fun k => Z.of_nat (F k)) (seq idx n))
    (map (fun k => Z.of_nat (G k)) (seq idx n))
    (map Z.of_nat (prefix_sums acc (map F (seq idx n))))
    (P1 ++ S1, P2 ++ S2, P3 ++ S3)
  = (P1 ++ concat (map (fun k => repeat (wrap hw (Z.of_nat k)) (F k)) (seq idx n)),
     P2 ++ concat (map (fun k => map (fun i => wrap hw (nth (G k + i) argsort 0))
                                      (seq 0 (F k))) (seq idx n)),
     P3 ++ concat (map (fun k => repeat (nth k sc []) (F k)) (seq idx n))).
Proof.
  induction n as [|n IH]; intros idx acc P1 P2 P3 S1 S2 S3 H1 H2 H3 HS1 HS2 HS3 Hb.
  - simpl in *. destruct S1, S2, S3; try discriminate. reflexivity.
  - rewrite list_sum_seq_cons in HS1, HS2, HS3, Hb.
    cbn [seq map prefix_sums gather_loop concat].
    unfold gather_task.
    assert (Hoff : Z.to_nat (task_offset ow (Z.of_nat (F idx)) (Z.of_nat (acc + F idx))) = acc).
    { unfold task_offset. rewrite (wrap_nonneg ow (Z.of_nat (F idx))) by lia.
      rewrite (wrap_nonneg ow) by lia. lia. }
    rewrite Hoff, !Nat2Z.id.
    rewrite (write_run_at acc _ P1 S1 H1) by (rewrite repeat_length; lia).
    rewrite (write_run_at acc _ P2 S2 H2) by (rewrite length_map, length_seq; lia).
    rewrite (write_run_at acc _ P3 S3 H3) by (rewrite repeat_length; lia).
    rewrite !app_assoc.
    rewrite IH; [rewrite <- !app_assoc; reflexivity| | | | | | |].
    + rewrite length_app, repeat_length; lia.
    + rewrite length_app, length_map, length_seq; lia.
    + rewrite length_app, repeat_length; lia.
    + rewrite length_skipn, repeat_length; lia.
    + rewrite length_skipn, length_map, length_seq; lia.
    + rewrite length_skipn, repeat_length; lia.
    + lia.
Qed.

(** ** The hash join *)

Lemma map_as_seq {A B} (f : A -> B) (l : list A) (d : A) :
  map f l = map (fun k => f (nth k l d)) (seq 0 (length l)).
Proof.
  induction l as [|a l IH]; [reflexivity|]. simpl. f_equal.
  rewrite IH, <- seq_shift, map_map. reflexivity.
Qed.

Lemma map_seq_add {A} (f : nat -> A) (a b n : nat) :
  map (fun i => f (a + i)%nat) (seq b n) = map f (seq (a + b) n).
Proof.
  revert b. induction n as [|n IH]; intros b; [reflexivity|]. simpl. f_equal.
  rewrite IH. f_equal. f_equal. lia.
Qed.

Lemma list_sum_map_le (F : nat -> nat) (b idx n : nat) :
  (forall k, (F k <= b)%nat) -> (list_sum (map F (seq idx n)) <= n * b)%nat.
Proof.
  revert idx. induction n as [|n IH]; intros idx HF; simpl; [lia|].
  specialize (IH (S idx) HF). specialize (HF idx). lia.
Qed.

Lemma perm_entry_bound (perm : list nat) (n t : nat) :
  Permutation perm (seq 0 n) -> (nth t perm 0 <= n)%nat.
Proof.
  intros Hp. destruct (Nat.lt_ge_cases t (length perm)) as [Ht|Ht].
  - assert (Hin : In (nth t perm 0%nat) (seq 0 n)) by (apply (Permutation_in _ Hp), nth_In, Ht).
    apply in_seq in Hin. lia.
  - rewrite nth_overflow by exact Ht. lia.
Qed.

Lemma in_range_nth (s : list Z) (l : list (list Z)) (k : nat) :
  Forall (in_range s) l -> (k < length l)%nat -> in_range s (nth k l []).
Proof. intros Hf Hk. rewrite Forall_forall in Hf. apply Hf, nth_In, Hk. Qed.

(** For each source nonzero [k], the search kernel returns a count [F k]
    and a first match [G k] such that the permuted positions
    [argsort[G k + i]], [i < F k], are exactly the probe nonzeros with the
    source's coordinate, each once. *)
Lemma join_stage_spec (hw ow : width) (bs : list Z) (probe source : @sparse V D)
    (sorted argsort : list Z) :
  join_pre hw ow bs probe source ->
  sort_stage probe (map (hash_of hw (hash_coeffs hw bs (sparse_dim probe))) (indices probe))
    = (sorted, argsort) ->
  exists (perm : list nat) (F G : nat -> nat),
    argsort = map Z.of_nat perm /\
    Permutation perm (seq 0 (nnz probe)) /\
    map (join_one hw (hash_coeffs hw bs (sparse_dim probe)) sorted) (indices source)
      = map (fun k => (Z.of_nat (F k), Z.of_nat (G k))) (seq 0 (nnz source)) /\
    (forall k, (F k <= nnz probe)%nat) /\
    (forall k, (k < nnz source)%nat ->
       NoDup (map (fun i => nth (G k + i) perm 0%nat) (seq 0 (F k))) /\
       forall j, In j (map (fun i => nth (G k + i) perm 0%nat) (seq 0 (F k))) <->
                 (j < nnz probe)%nat /\ nth j (indices probe) [] = nth k (indices source) []).
Proof.
  intros Hpre Hsort. destruct Hpre as [Hpr Hsr Hfit Hps Hnp Hns Hoff].
  unfold nnz in *.
  set (s := firstn (sparse_dim probe) bs) in *.
  set (coeffs := hash_coeffs hw bs (sparse_dim probe)) in *.
  set (pc := indices probe) in *. set (sc := indices source) in *.
  set (lin := hash_math (contiguous_strides s)).
  assert (Hhash : forall c, in_range s c -> hash_of hw coeffs c = lin c).
  { intros c Hc. apply hash_of_exact; assumption. }
  assert (Hph : map (hash_of hw coeffs) pc = map lin pc).
  { apply map_ext_in. intros c Hc. apply Hhash. rewrite Forall_forall in Hpr. apply Hpr, Hc. }
  destruct (sort_stage_ok probe (map (hash_of hw coeffs) pc) sorted argsort) as
      (perm & Hargs & Hls & Hlp & Hsorted & Hperm & Hnth); [|exact Hsort|].
  { intros Hc. rewrite Hph. apply sorted_hashes; [exact Hpr|apply Hps, Hc]. }
  rewrite length_map in Hls, Hlp, Hperm, Hnth.
  assert (Hlen' : Z.of_nat (length sorted) <= INT_MAX) by (rewrite Hls; exact Hnp).
  set (LB := fun c => find_bound true sorted (hash_of hw coeffs c)).
  set (UB := fun c => find_bound false sorted (hash_of hw coeffs c)).
  exists perm, (fun k => UB (nth k sc []) - LB (nth k sc []))%nat, (fun k => LB (nth k sc [])).
  split; [exact Hargs|]. split; [exact Hperm|]. split; [|split].
  - rewrite (map_as_seq _ sc []). apply map_ext. intros k.
    rewrite (join_one_exact sorted hw coeffs (nth k sc []) Hsorted Hlen').
    destruct (find_bound_span sorted (hash_of hw coeffs (nth k sc [])) Hsorted) as [Hb _].
    cbv zeta in Hb. unfold UB, LB. rewrite Nat2Z.inj_sub by lia. reflexivity.
  - intros k. destruct (find_bound_span sorted (hash_of hw coeffs (nth k sc [])) Hsorted) as [Hb _].
    cbv zeta in Hb. unfold UB, LB. lia.
  - intros k Hk. set (c := nth k sc []).
    assert (Hc : in_range s c) by (apply in_range_nth; assumption).
    destruct (find_bound_span sorted (hash_of hw coeffs c) Hsorted) as [Hb Hspan].
    fold (LB c) (UB c) in Hb, Hspan.
    assert (Hnd : NoDup perm) by (apply (Permutation_NoDup (Permutation_sym Hperm)), seq_NoDup).
    assert (Hpl : length perm = length pc) by exact Hlp.
    rewrite (map_seq_add (fun t => nth t perm 0%nat) (LB c) 0), Nat.add_0_r.
    split.
    + apply NoDup_map_NoDup_ForallPairs; [|apply seq_NoDup].
      intros t1 t2 H1 H2 Heq. apply in_seq in H1, H2.
      apply (proj1 (NoDup_nth perm 0%nat) Hnd t1 t2); [lia|lia|exact Heq].
    + intros j. rewrite in_map_iff. split.
      * intros (t & <- & Ht). apply in_seq in Ht.
        destruct (proj1 (Hspan t) ltac:(lia)) as [Htn Hst].
        assert (Hpt : (nth t perm 0 < length pc)%nat).
        { pose proof (perm_entry_bound perm (length pc) t Hperm).
          assert (Hin : In (nth t perm 0%nat) (seq 0 (length pc)))
            by (apply (Permutation_in _ Hperm), nth_In; lia).
          apply in_seq in Hin. lia. }
        split; [exact Hpt|].
        rewrite Hnth in Hst by lia. rewrite Hph in Hst.
        rewrite (nth_indep _ 0 (lin [])) in Hst by (rewrite length_map; exact Hpt).
        rewrite map_nth, (Hhash c Hc) in Hst.
        apply (proj2 (hash_math_lex s _ _ (in_range_nth s pc _ Hpr Hpt) Hc)), Hst.
      * intros [Hj Hcj].
        assert (Hin : In j perm) by (apply (Permutation_in _ (Permutation_sym Hperm)), in_seq; lia).
        destruct (In_nth perm j 0%nat Hin) as (t & Ht & Htj).
        exists t. split; [exact Htj|]. apply in_seq.
        assert (Hst : nth t sorted 0 = hash_of hw coeffs c).
        { rewrite Hnth by lia. rewrite Htj, Hph.
          rewrite (nth_indep _ 0 (lin [])) by (rewrite length_map; exact Hj).
          rewrite map_nth, (Hhash c Hc). fold c in Hcj. rewrite Hcj. reflexivity. }
        assert (Htl : (t < length sorted)%nat) by lia.
        destruct (proj2 (Hspan t) (conj Htl Hst)). lia.
Qed.

(** The intersection stage as a whole: the selected pairs are, in source
    order, every (source nonzero, matching probe nonzero) pair. *)
Lemma intersect_stage_spec (hw ow : width) (bs : list Z) (probe source : @sparse V D) :
  join_pre hw ow bs probe source ->
  exists Mt : nat -> list nat,
    (forall k, (k < nnz source)%nat ->
       NoDup (Mt k) /\
       forall j, In j (Mt k) <->
                 (j < nnz probe)%nat /\ nth j (indices probe) [] = nth k (indices source) []) /\
    intersect_stage hw ow bs probe source =
      inr (map (fun p => Z.of_nat (fst p))
             (concat (map (fun k => map (fun j => (k, j)) (Mt k)) (seq 0 (nnz source)))),
           map (fun p => Z.of_nat (snd p))
             (concat (map (fun k => map (fun j => (k, j)) (Mt k)) (seq 0 (nnz source)))),
           map (fun p => nth (fst p) (indices source) [])
             (concat (map (fun k => map (fun j => (k, j)) (Mt k)) (seq 0 (nnz source))))).
Proof.
  intros Hpre. pose proof Hpre as Hpre'. destruct Hpre' as [_ _ _ _ Hnp Hns Hoff].
  unfold intersect_stage. cbv zeta.
  destruct (sort_stage probe _) as [sorted argsort] eqn:Hsort.
  destruct (join_stage_spec hw ow bs probe source sorted argsort Hpre Hsort)
    as (perm & F & G & Hargs & Hperm & Hmatch & HF & HM).
  exists (fun k => map (fun i => nth (G k + i) perm 0%nat) (seq 0 (F k))).
  split; [exact HM|].
  unfold nnz in *. set (ns := length (indices source)) in *. set (np := length (indices probe)) in *.
  rewrite Hmatch, !map_map. cbn [fst snd].
  set (tot := list_sum (map F (seq 0 ns))).
  assert (Htot : Z.of_nat (0 + tot) <= max_of ow).
  { pose proof (list_sum_map_le F np 0 ns HF). fold tot in H. lia. }
  replace (map (fun x => Z.of_nat (F x)) (seq 0 ns)) with (map Z.of_nat (map F (seq 0 ns)))
    by (rewrite map_map; reflexivity).
  replace (cumsum ow (map Z.of_nat (map F (seq 0 ns))))
    with (map Z.of_nat (prefix_sums 0 (map F (seq 0 ns))))
    by (symmetry; exact (cumsum_exact ow 0 _ Htot)).
  rewrite intersection_nnz_exact. fold tot.
  rewrite (proj2 (Z.ltb_ge _ _)) by lia. rewrite Nat2Z.id.
  pose proof (gather_loop_concat hw ow argsort (indices source) F G ns 0 0 [] [] []
                (repeat 0 tot) (repeat 0 tot) (repeat [] tot)) as Hg.
  rewrite !app_nil_l, !repeat_length in Hg.
  rewrite map_map. rewrite Hg by (reflexivity || exact Htot).
  clear Hg. rewrite !concat_map, !map_map.
  f_equal. f_equal; [f_equal|].
  - f_equal. apply map_ext_in. intros k Hk. apply in_seq in Hk.
    rewrite map_map. cbn [fst]. rewrite map_const, length_map, length_seq.
    rewrite wrap_small by lia. reflexivity.
  - f_equal. apply map_ext_in. intros k Hk. apply in_seq in Hk.
    rewrite !map_map. cbn [snd]. apply map_ext_in. intros i Hi.
    rewrite Hargs. change 0 with (Z.of_nat 0) at 1. rewrite map_nth.
    pose proof (perm_entry_bound perm np (G k + i) Hperm).
    rewrite wrap_small by lia. reflexivity.
  - f_equal. apply map_ext_in. intros k Hk.
    rewrite map_map. cbn [fst]. rewrite map_const, length_map, length_seq. reflexivity.
Qed.

(** ** Gather slots *)

Lemma all_task_slots_concat (ow : width) (F : nat -> nat) (n : nat) :
  forall idx acc,
  Z.of_nat (acc + list_sum (map F (seq idx n))) <= max_of ow ->
  concat (all_task_slots ow (map (fun k => Z.of_nat (F k)) (seq idx n))
            (map Z.of_nat (prefix_sums acc (map F (seq idx n)))))
  = seq acc (list_sum (map F (seq idx n))).
Proof.
  induction n as [|n IH]; intros idx acc Hb; [reflexivity|].
  rewrite list_sum_seq_cons in Hb |- *.
  cbn [seq map prefix_sums all_task_slots concat].
  assert (Hoff : Z.to_nat (task_offset ow (Z.of_nat (F idx)) (Z.of_nat (acc + F idx))) = acc).
  { unfold task_offset. rewrite (wrap_nonneg ow (Z.of_nat (F idx))) by lia.
    rewrite (wrap_nonneg ow) by lia. lia. }
  unfold task_slots. rewrite Hoff, Nat2Z.id, IH by lia.
  rewrite seq_app. f_equal.
  pose proof (map_seq_add (fun x => x) acc 0 (F idx)) as E. cbv beta in E.
  rewrite E, Nat.add_0_r, map_id. reflexivity.
Qed.

(** C8: the gather writes of the source nonzeros are disjoint and cover
    the output.  Task [k] writes the slots
    [[shifted_offset[k] - count[k], shifted_offset[k])] ([task_slots]); in
    task order these ranges are consecutive, so their concatenation is
    exactly [0, ..., nnz - 1]: pairwise disjoint, covering, and each output
    slot written by exactly one task, once. *)
Theorem gather_slots_partition (hw ow : width) (bs : list Z) (probe source : @sparse V D)
    (sorted argsort : list Z) :
  join_pre hw ow bs probe source ->
  sort_stage probe (map (hash_of hw (hash_coeffs hw bs (sparse_dim probe))) (indices probe))
    = (sorted, argsort) ->
  let counts := map fst (map (join_one hw (hash_coeffs hw bs (sparse_dim probe)) sorted)
                           (indices source)) in
  let shifted := cumsum ow counts in
  let total := Z.to_nat (intersection_nnz ow shifted) in
  concat (all_task_slots ow counts shifted) = seq 0 total /\
  NoDup (concat (all_task_slots ow counts shifted)) /\
  (forall slot, In slot (concat (all_task_slots ow counts shifted)) <-> (slot < total)%nat).
Proof.
  intros Hpre Hsort. pose proof Hpre as Hpre'. destruct Hpre' as [_ _ _ _ Hnp Hns Hoff].
  destruct (join_stage_spec hw ow bs probe source sorted argsort Hpre Hsort)
    as (perm & F & G & _ & _ & Hmatch & HF & _).
  cbv zeta. rewrite Hmatch, map_map. cbn [fst].
  unfold nnz in *.
  set (ns := length (indices source)) in *. set (np := length (indices probe)) in *.
  set (tot := list_sum (map F (seq 0 ns))).
  assert (Htot : Z.of_nat (0 + tot) <= max_of ow).
  { pose proof (list_sum_map_le F np 0 ns HF). fold tot in H. lia. }
  replace (cumsum ow (map (fun x => Z.of_nat (F x)) (seq 0 ns)))
    with (map Z.of_nat (prefix_sums 0 (map F (seq 0 ns)))).
  2:{ symmetry. rewrite <- (map_map F Z.of_nat). exact (cumsum_exact ow 0 _ Htot). }
  rewrite intersection_nnz_exact, Nat2Z.id. fold tot.
  rewrite (all_task_slots_concat ow F ns 0 0 Htot).
  split; [reflexivity|]. split; [apply seq_NoDup|].
  intros slot. rewrite in_seq. lia.
Qed.

(** ** Lexicographic order and [coalesce] *)

Lemma coord_eqb_eq (a b : list Z) : coord_eqb a b = true <-> a = b.
Proof.
  revert b. induction a as [|x a IH]; intros [|y b]; simpl; try (split; congruence).
  rewrite andb_true_iff, Z.eqb_eq, IH. split; [intros [-> ->]; reflexivity|].
  intros H; injection H as -> ->. auto.
Qed.

Lemma lex_lt_irrefl (a : list Z) : lex_lt a a = false.
Proof. induction a as [|x a IH]; simpl; [reflexivity|]. rewrite Z.ltb_irrefl, Z.eqb_refl, IH. reflexivity. Qed.

Lemma lex_lt_trans (a b c : list Z) : lex_lt a b = true -> lex_lt b c = true -> lex_lt a c = true.
Proof.
  revert b c. induction a as [|x a IH]; intros [|y b] [|z c]; simpl; try congruence.
  rewrite !orb_true_iff, !andb_true_iff, !Z.ltb_lt, !Z.eqb_eq.
  intros [H1|[-> H1]] [H2|[-> H2]]; [left; lia|left; lia|left; lia|right; split; eauto].
Qed.

Lemma lex_lt_total (a b : list Z) : lex_lt a b = false -> a <> b -> lex_lt b a = true.
Proof.
  revert b. induction a as [|x a IH]; intros [|y b]; simpl; try congruence.
  rewrite !orb_false_iff, !andb_false_iff, !Z.ltb_ge, !Z.eqb_neq, orb_true_iff, andb_true_iff,
    Z.ltb_lt, Z.eqb_eq.
  intros [H1 [H2|H2]] Hne; [left; lia|].
  destruct (Z.eq_dec y x) as [->|]; [|left; lia]. right. split; [reflexivity|].
  apply IH; [exact H2|]. intros ->. apply Hne. reflexivity.
Qed.

Lemma lexlt_irrefl_neq (a b : list Z) : lexlt a b -> a <> b.
Proof. intros H ->. unfold lexlt in H. rewrite lex_lt_irrefl in H. discriminate. Qed.

Lemma coo_insert_in (c : list Z) (v : V) (acc : list (list Z * V)) (c' : list Z) :
  In c' (map fst (coo_insert c v acc)) <-> c' = c \/ In c' (map fst acc).
Proof.
  induction acc as [|[c0 v0] r IH]; simpl; [intuition congruence|].
  destruct (lex_lt c c0); simpl; [intuition congruence|].
  destruct (coord_eqb c c0) eqn:E; simpl.
  - apply coord_eqb_eq in E. subst. intuition congruence.
  - rewrite IH. intuition congruence.
Qed.

Lemma coo_insert_sorted (c : list Z) (v : V) (acc : list (list Z * V)) :
  StronglySorted lexlt (map fst acc) -> StronglySorted lexlt (map fst (coo_insert c v acc)).
Proof.
  induction acc as [|[c0 v0] r IH]; intros Hs; simpl.
  - repeat constructor.
  - inversion Hs as [|? ? Hr Hf]; subst.
    destruct (lex_lt c c0) eqn:L; simpl.
    + constructor; [exact Hs|]. constructor; [exact L|].
      eapply Forall_impl; [|exact Hf]. intros d Hd. exact (lex_lt_trans _ _ _ L Hd).
    + destruct (coord_eqb c c0) eqn:E; simpl; [exact Hs|].
      constructor; [apply IH, Hr|]. apply Forall_forall. intros d Hd.
      apply coo_insert_in in Hd as [Hdc|Hd].
      * subst d. apply lex_lt_total; [exact L|]. intros Heq. subst c0.
        rewrite (proj2 (coord_eqb_eq c c) eq_refl) in E. discriminate.
      * rewrite Forall_forall in Hf. apply Hf, Hd.
Qed.

Lemma coo_insert_length (c : list Z) (v : V) (acc : list (list Z * V)) :
  (length (coo_insert c v acc) <= S (length acc))%nat.
Proof.
  induction acc as [|[c0 v0] r IH]; simpl; [lia|].
  destruct (lex_lt c c0); simpl; [lia|]. destruct (coord_eqb c c0); simpl; lia.
Qed.

Lemma coalesce_fold (l : list (list Z * V)) :
  forall acc,
  let kv := fold_left (fun acc cv => coo_insert (fst cv) (snd cv) acc) l acc in
  (StronglySorted lexlt (map fst acc) -> StronglySorted lexlt (map fst kv)) /\
  (forall c, In c (map fst kv) <-> In c (map fst acc) \/ In c (map fst l)) /\
  (length kv <= length acc + length l)%nat.
Proof.
  induction l as [|[c v] l IH]; intros acc; simpl.
  - split; [auto|]. split; [tauto|lia].
  - destruct (IH (coo_insert c v acc)) as (H1 & H2 & H3). split; [|split].
    + intros Hs. apply H1, coo_insert_sorted, Hs.
    + intros c'. rewrite H2, coo_insert_in. intuition congruence.
    + pose proof (coo_insert_length c v acc). lia.
Qed.

Lemma map_fst_combine {A B} (l : list A) (l' : list B) :
  length l = length l' -> map fst (combine l l') = l.
Proof.
  revert l'. induction l as [|a l IH]; intros [|b l'] H; simpl in *; try discriminate; auto.
  rewrite IH; auto.
Qed.

Lemma coalesce_props (t : @sparse V D) :
  length (values t) = length (indices t) ->
  (coalesced t = true -> StronglySorted lexlt (indices t)) ->
  coalesced (coalesce t) = true /\
  StronglySorted lexlt (indices (coalesce t)) /\
  (forall c, In c (indices (coalesce t)) <-> In c (indices t)) /\
  (nnz (coalesce t) <= nnz t)%nat /\
  length (values (coalesce t)) = length (indices (coalesce t)) /\
  sizes (coalesce t) = sizes t /\ sparse_dim (coalesce t) = sparse_dim t /\
  dense_dim (coalesce t) = dense_dim t /\ dtype (coalesce t) = dtype t /\
  is_sparse (coalesce t) = is_sparse t.
Proof.
  intros Hv Hs. unfold coalesce, nnz. destruct (coalesced t) eqn:Hc.
  - rewrite Hc. repeat split; auto.
  - destruct (coalesce_fold (combine (indices t) (values t)) []) as (H1 & H2 & H3).
    cbn [indices values coalesced sizes sparse_dim dense_dim dtype is_sparse].
    rewrite map_fst_combine in H2 by congruence.
    rewrite length_combine in H3.
    repeat split.
    + apply H1. constructor.
    + intros Hc'. apply H2 in Hc'. simpl in Hc'. tauto.
    + intros Hc'. apply H2. tauto.
    + rewrite length_map. simpl in H3. lia.
    + rewrite !length_map. reflexivity.
Qed.

Lemma coalesce_idem (t : @sparse V D) : coalesce (coalesce t) = coalesce t.
Proof. unfold coalesce. destruct (coalesced t) eqn:Hc; simpl; rewrite ?Hc; reflexivity. Qed.

Lemma coalesce_flag (t : @sparse V D) : coalesced (coalesce t) = true.
Proof. unfold coalesce. destruct (coalesced t) eqn:Hc; [exact Hc|reflexivity]. Qed.

Lemma operand_ok_coalesce (sd : nat) (s : list Z) (t : @sparse V D) :
  operand_ok sd s t -> operand_ok sd s (coalesce t) /\ (nnz (coalesce t) <= nnz t)%nat.
Proof.
  intros [Hd Hr Hs Hn Hv].
  destruct (coalesce_props t Hv Hs) as (Hc & Hs' & Hin & Hnn & Hv' & Hsz & Hsd & _).
  split; [|exact Hnn]. constructor.
  - rewrite Hsd; exact Hd.
  - apply Forall_forall. intros c Hc'. apply Hin in Hc'. rewrite Forall_forall in Hr. apply Hr, Hc'.
  - intros _. exact Hs'.
  - unfold nnz in *. lia.
  - exact Hv'.
Qed.

Lemma operand_ok_prep (sd : nat) (s : list Z) (comm : bool) (t : @sparse V D) :
  operand_ok sd s t -> operand_ok sd s (prep comm t) /\ (nnz (prep comm t) <= nnz t)%nat.
Proof.
  intros Ht. unfold prep. destruct comm; [split; [exact Ht|lia]|].
  apply operand_ok_coalesce, Ht.
Qed.

Lemma select_roles_cases (x y p q : @sparse V D) :
  select_roles x y = inr (p, q) ->
  (p = x /\ q = y) \/ (p = y /\ q = x) \/ (p = coalesce x /\ q = y) \/ (p = coalesce y /\ q = x).
Proof.
  unfold select_roles. destruct (xorb _ _).
  - destruct (coalesced x); intros H; injection H as <- <-; auto.
  - destruct (nnz y <=? nnz x)%nat; cbv beta iota zeta;
      repeat match goal with |- context [if ?b then _ else _] => destruct b end;
      intros H; try discriminate; injection H as <- <-; auto.
Qed.

Lemma select_roles_flag (x y p q : @sparse V D) :
  select_roles x y = inr (p, q) -> coalesced q && coalesced p = coalesced x && coalesced y.
Proof.
  unfold select_roles. destruct (coalesced x) eqn:Hx, (coalesced y) eqn:Hy; cbn [xorb];
    try (intros H; injection H as <- <-; rewrite Hx, Hy; reflexivity);
    destruct (nnz y <=? nnz x)%nat; cbv beta iota zeta;
    repeat match goal with |- context [if ?b then _ else _] => destruct b end;
    intros H; try discriminate; injection H as <- <-; rewrite ?coalesce_flag, ?Hx, ?Hy; reflexivity.
Qed.

Lemma select_roles_ok (sd : nat) (s : list Z) (x y p q : @sparse V D) :
  operand_ok sd s x -> operand_ok sd s y -> select_roles x y = inr (p, q) ->
  operand_ok sd s p /\ operand_ok sd s q /\ (nnz p * nnz q <= nnz x * nnz y)%nat.
Proof.
  intros Hx Hy Hr.
  destruct (operand_ok_coalesce _ _ _ Hx) as [Hx' Hnx].
  destruct (operand_ok_coalesce _ _ _ Hy) as [Hy' Hny].
  destruct (select_roles_cases x y p q Hr) as [[-> ->]|[[-> ->]|[[-> ->]|[-> ->]]]];
    (split; [|split]); try assumption; nia.
Qed.

(** ** Width selection and broadcasting *)

Lemma wrap_congr (w : width) (a k : Z) : wrap w (a + k * 2 ^ width_bits w) = wrap w a.
Proof.
  unfold wrap. f_equal.
  replace (a + k * 2 ^ width_bits w + 2 ^ (width_bits w - 1))
    with (a + 2 ^ (width_bits w - 1) + k * 2 ^ width_bits w) by ring.
  apply Z_mod_plus_full.
Qed.

Lemma wrap_eq_sub (w : width) (a : Z) :
  wrap w a = a + (- ((a + 2 ^ (width_bits w - 1)) / 2 ^ width_bits w)) * 2 ^ width_bits w.
Proof. unfold wrap. rewrite Z.mod_eq by (destruct w; simpl; lia). ring. Qed.

Lemma wrap_mul_l (w : width) (a d : Z) : wrap w (wrap w a * d) = wrap w (a * d).
Proof.
  rewrite (wrap_eq_sub w a) at 1.
  generalize (- ((a + 2 ^ (width_bits w - 1)) / 2 ^ width_bits w)). intros k.
  replace ((a + k * 2 ^ width_bits w) * d) with (a * d + (k * d) * 2 ^ width_bits w) by ring.
  apply wrap_congr.
Qed.

Lemma fold_wrap_prod (l : list Z) (a : Z) :
  fold_left (fun acc d => wrap W64 (acc * d)) l (wrap W64 a) = wrap W64 (a * prod l).
Proof.
  revert a. induction l as [|d l IH]; intros a; cbn [fold_left].
  - rewrite Z.mul_1_r. reflexivity.
  - rewrite wrap_mul_l, IH, prod_cons. f_equal. ring.
Qed.

Lemma prod_nonneg (l : list Z) : Forall (fun d => 0 <= d) l -> 0 <= prod l.
Proof. induction 1; [unfold prod; simpl; lia|]. rewrite prod_cons. nia. Qed.

Lemma in_firstn_in {A} (n : nat) (l : list A) (x : A) : In x (firstn n l) -> In x l.
Proof. intros H. rewrite <- (firstn_skipn n l). apply in_or_app. left; exact H. Qed.

(** With [nnz] within [INT_MAX] and the sparse shape's element count an
    [int64_t], the width selection gives widths that hold the hashes and
    the offsets. *)
Lemma select_widths_fit (bs : list Z) (sd nx ny : nat) (hw ow : width) :
  0 <= prod (firstn sd bs) <= max_of W64 ->
  Z.of_nat nx <= INT_MAX -> Z.of_nat ny <= INT_MAX ->
  select_widths bs sd (Z.of_nat nx) (Z.of_nat ny) = (hw, ow) ->
  prod (firstn sd bs) <= max_of hw /\ Z.of_nat nx * Z.of_nat ny <= max_of ow.
Proof.
  intros Hp Hx Hy.
  assert (E : fold_left (fun acc d => wrap W64 (acc * d)) (firstn sd bs) 1 = prod (firstn sd bs)).
  { pose proof (fold_wrap_prod (firstn sd bs) 1) as E. change (wrap W64 1) with 1 in E.
    rewrite E, Z.mul_1_l. apply wrap_nonneg. exact Hp. }
  assert (H64 : max_of W64 = 9223372036854775807) by reflexivity.
  assert (H32 : max_of W32 = INT_MAX) by reflexivity.
  unfold select_widths. rewrite E.
  rewrite (wrap_nonneg W64 (Z.of_nat nx * Z.of_nat ny)) by (unfold INT_MAX in *; nia).
  destruct (prod (firstn sd bs) <=? INT_MAX) eqn:E1, (Z.of_nat nx * Z.of_nat ny <=? INT_MAX) eqn:E2;
    intros H; injection H as <- <-;
    repeat match goal with
           | H : (_ <=? _) = true |- _ => apply Z.leb_le in H
           | H : (_ <=? _) = false |- _ => apply Z.leb_gt in H
           end;
    unfold INT_MAX in *; split; nia.
Qed.

Lemma bcast_rev_same (a b bs : list Z) :
  length a = length b -> bcast_rev a b = Some bs ->
  length bs = length a /\ forall i, nth i a 0 = nth i b 0 -> nth i bs 0 = nth i a 0.
Proof.
  revert b bs. induction a as [|x a IH]; intros [|y b] bs Hl H; simpl in *; try discriminate.
  - injection H as <-. split; [reflexivity|]. intros i _; reflexivity.
  - destruct (bcast_dim x y) eqn:Hd; [|discriminate].
    destruct (bcast_rev a b) as [r|] eqn:Hr; [|discriminate].
    injection H as <-. destruct (IH b r ltac:(lia) Hr) as [Hl' Hn].
    split; [simpl; lia|]. intros [|i] Hi; simpl in *.
    + subst y. unfold bcast_dim in Hd. rewrite Z.eqb_refl in Hd. injection Hd as <-. reflexivity.
    + apply Hn, Hi.
Qed.

Lemma infer_size_prefix (a b bs : list Z) (n : nat) :
  length a = length b -> firstn n a = firstn n b ->
  infer_size a b = Some bs -> firstn n bs = firstn n a.
Proof.
  intros Hl Hf. unfold infer_size.
  destruct (bcast_rev (rev a) (rev b)) as [r|] eqn:Hr; [|discriminate].
  simpl. intros H; injection H as <-.
  destruct (bcast_rev_same (rev a) (rev b) r ltac:(rewrite !length_rev; exact Hl) Hr)
    as [Hlr Hn].
  rewrite length_rev in Hlr.
  apply nth_ext with (d := 0) (d' := 0).
  - rewrite !length_firstn, length_rev. lia.
  - intros i Hi. rewrite length_firstn, length_rev in Hi. rewrite !nth_firstn.
    destruct (i <? n)%nat eqn:E; [|reflexivity]. apply Nat.ltb_lt in E.
    assert (Hab : nth i a 0 = nth i b 0).
    { pose proof (f_equal (fun l => nth i l 0) Hf) as Hf'. cbv beta in Hf'.
      rewrite !nth_firstn, (proj2 (Nat.ltb_lt _ _) E) in Hf'. exact Hf'. }
    rewrite rev_nth by lia. rewrite Hlr. rewrite Hn.
    + rewrite rev_nth by lia. f_equal. lia.
    + rewrite !rev_nth by lia. rewrite <- Hl.
      replace (length a - S (length a - S i))%nat with i by lia. exact Hab.
Qed.

(** ** The entry point *)

Lemma forallb_eq_prefix (l1 l2 : list Z) :
  forallb (fun ab => fst ab =? snd ab) (combine l1 l2) && (length l1 =? length l2)%nat = true
  <-> l1 = l2.
Proof.
  revert l2. induction l1 as [|a l1 IH]; intros [|b l2]; simpl; try (split; congruence).
  rewrite <- andb_assoc, andb_true_iff, Z.eqb_eq, IH. split; [intros [-> ->]; reflexivity|].
  intros H; injection H as -> ->. auto.
Qed.

Lemma precondition_iff (x y : @sparse V D) :
  precondition x y = true <->
  is_sparse x = true /\ is_sparse y = true /\ length (sizes x) = length (sizes y) /\
  sparse_dim x = sparse_dim y /\
  firstn (sparse_dim x) (sizes x) = firstn (sparse_dim y) (sizes y).
Proof.
  unfold precondition. rewrite !andb_true_iff.
  rewrite <- (forallb_eq_prefix (firstn (sparse_dim x) (sizes x)) (firstn (sparse_dim y) (sizes y))).
  rewrite andb_true_iff, !Nat.eqb_eq. tauto.
Qed.

Lemma kernel_out_success (x y : @sparse V D) (comm : bool) (res0 r : @sparse V D) :
  kernel_out x y comm res0 = (r, inr tt) ->
  exists bs hw ow p q sel_src sel_pc res_idx,
    precondition x y = true /\
    infer_size (sizes x) (sizes y) = Some bs /\
    select_widths bs (sparse_dim x) (Z.of_nat (nnz x)) (Z.of_nat (nnz y)) = (hw, ow) /\
    canCast (result_type (dtype x) (dtype y)) (dtype res0) = true /\
    select_roles (prep comm x) (prep comm y) = inr (p, q) /\
    intersect_stage hw ow bs p q = inr (sel_src, sel_pc, res_idx) /\
    r = assemble res0 bs p q sel_src sel_pc res_idx.
Proof.
  unfold kernel_out, kernel_impl, bind, check, lift, ret, get, put.
  destruct (precondition x y) eqn:Hpre; [|intros H; inversion H].
  destruct (infer_size (sizes x) (sizes y)) as [bs|] eqn:Hbs; [|intros H; inversion H].
  destruct (select_widths bs (sparse_dim x) (Z.of_nat (nnz x)) (Z.of_nat (nnz y))) as [hw ow] eqn:Hw.
  destruct (canCast _ _) eqn:Hc; [|intros H; inversion H].
  destruct (select_roles _ _) as [e|[p q]] eqn:Hr; [intros H; inversion H|].
  cbn [fst snd].
  destruct (intersect_stage hw ow bs p q) as [e|[[a b] c]] eqn:Hi; [intros H; inversion H|].
  intros Heq; injection Heq as <-. exists bs, hw, ow, p, q, a, b, c. auto 8.
Qed.

Lemma kernel_out_error_state (x y : @sparse V D) (comm : bool) (res0 r : @sparse V D) (e : error) :
  kernel_out x y comm res0 = (r, inl e) -> r = res0.
Proof.
  unfold kernel_out, kernel_impl, bind, check, lift, ret, get, put.
  destruct (precondition x y); [|intros H; injection H as <-; reflexivity].
  destruct (infer_size (sizes x) (sizes y)) as [bs|]; [|intros H; injection H as <-; reflexivity].
  destruct (select_widths bs (sparse_dim x) (Z.of_nat (nnz x)) (Z.of_nat (nnz y))) as [hw ow].
  destruct (canCast _ _); [|intros H; injection H as <-; reflexivity].
  destruct (select_roles _ _) as [e'|[p q]]; [intros H; injection H as <-; reflexivity|].
  cbn [fst snd].
  destruct (intersect_stage hw ow bs p q) as [e'|[[a b] c]];
    [intros H; injection H as <-; reflexivity|].
  intros H. inversion H.
Qed.

Lemma index_select_map (vals : list V) (f : nat * nat -> nat) (P : list (nat * nat)) :
  index_select vals (map (fun ij => Z.of_nat (f ij)) P) = map (fun ij => nth (f ij) vals vzero) P.
Proof. unfold index_select. rewrite map_map. apply map_ext. intros ij. rewrite Nat2Z.id. reflexivity. Qed.

Lemma combine_map {A B C} (f : A -> B) (g : A -> C) (l : list A) :
  combine (map f l) (map g l) = map (fun a => (f a, g a)) l.
Proof. induction l as [|a l IH]; simpl; [reflexivity|]. rewrite IH. reflexivity. Qed.

Lemma coalesce_in_ok (sd : nat) (s : list Z) (t : @sparse V D) (c : list Z) :
  operand_ok sd s t -> In c (indices (coalesce t)) <-> In c (indices t).
Proof.
  intros [_ _ Hs _ Hv]. destruct (coalesce_props t Hv Hs) as (_ & _ & Hin & _). apply Hin.
Qed.

Lemma prep_in (sd : nat) (s : list Z) (comm : bool) (t : @sparse V D) (c : list Z) :
  operand_ok sd s t -> In c (indices (prep comm t)) <-> In c (indices t).
Proof. intros Ht. unfold prep. destruct comm; [reflexivity|]. apply (coalesce_in_ok sd s), Ht. Qed.

Lemma roles_in (sd : nat) (s : list Z) (x y p q : @sparse V D) (c : list Z) :
  operand_ok sd s x -> operand_ok sd s y -> select_roles x y = inr (p, q) ->
  (In c (indices p) /\ In c (indices q) <-> In c (indices x) /\ In c (indices y)).
Proof.
  intros Hx Hy Hr.
  destruct (select_roles_cases x y p q Hr) as [[-> ->]|[[-> ->]|[[-> ->]|[-> ->]]]];
    rewrite ?(coalesce_in_ok sd s _ c Hx), ?(coalesce_in_ok sd s _ c Hy); tauto.
Qed.

(** A successful run of the entry point on valid inputs: the roles chosen,
    the matched pairs [(source nonzero, probe nonzero)] in source order, and
    the result's indices, values, coalesced flag and dtype. *)
Lemma kernel_out_spec (x y : @sparse V D) (comm : bool) (res0 r : @sparse V D) :
  valid x -> valid y -> nnz_fits x -> nnz_fits y ->
  kernel_out x y comm res0 = (r, inr tt) ->
  exists (p q : @sparse V D) (Mt : nat -> list nat),
    select_roles (prep comm x) (prep comm y) = inr (p, q) /\
    (forall c, In c (indices p) /\ In c (indices q) <-> In c (indices x) /\ In c (indices y)) /\
    operand_ok (sparse_dim x) (firstn (sparse_dim x) (sizes x)) p /\
    operand_ok (sparse_dim x) (firstn (sparse_dim x) (sizes x)) q /\
    (forall k, (k < nnz q)%nat ->
       NoDup (Mt k) /\
       forall j, In j (Mt k) <-> (j < nnz p)%nat /\ nth j (indices p) [] = nth k (indices q) []) /\
    indices r = map (fun ij => nth (fst ij) (indices q) [])
                  (concat (map (fun k => map (fun j => (k, j)) (Mt k)) (seq 0 (nnz q)))) /\
    values r = map (fun ij => vcast (dtype res0)
                                (apply_op (nth (fst ij) (values q) vzero)
                                          (nth (snd ij) (values p) vzero)))
                 (concat (map (fun k => map (fun j => (k, j)) (Mt k)) (seq 0 (nnz q)))) /\
    coalesced r = coalesced q && coalesced p /\
    dtype r = dtype res0.
Proof.
  intros Vx Vy Fx Fy Hrun.
  destruct (kernel_out_success x y comm res0 r Hrun)
    as (bs & hw & ow & p & q & a & b & c & Hpre & Hbs & Hw & Hc & Hr & Hi & ->).
  apply precondition_iff in Hpre as (Sx & Sy & Hlen & Hsd & Hpf).
  set (sd := sparse_dim x) in *. set (s := firstn sd (sizes x)) in *.
  rewrite <- Hsd in Hpf.
  assert (Hbs' : firstn sd bs = s) by exact (infer_size_prefix _ _ bs sd Hlen Hpf Hbs).
  destruct Vx as [_ Rx Cx Vvx Zx Nx]. destruct Vy as [_ Ry Cy Vvy Zy Ny].
  assert (Ox : operand_ok sd s x) by (constructor; auto).
  assert (Oy : operand_ok sd s y).
  { constructor; auto. rewrite <- Hsd in Ry. fold sd in Ry. rewrite <- Hpf in Ry. exact Ry. }
  destruct (operand_ok_prep sd s comm x Ox) as [Ox' Hnx].
  destruct (operand_ok_prep sd s comm y Oy) as [Oy' Hny].
  destruct (select_roles_ok sd s _ _ p q Ox' Oy' Hr) as (Op & Oq & Hnn).
  assert (Hprod : 0 <= prod (firstn sd bs) <= max_of W64).
  { rewrite Hbs'. split; [|exact Nx]. apply prod_nonneg. rewrite Forall_forall in Zx |- *.
    intros d Hd. apply Zx, (in_firstn_in sd), Hd. }
  destruct (select_widths_fit bs sd (nnz x) (nnz y) hw ow Hprod Fx Fy Hw) as [Hh Ho].
  pose proof Op as Op'. pose proof Oq as Oq'.
  destruct Op' as [Dp Rp Sp Np Vp]. destruct Oq' as [Dq Rq Sq Nq Vq].
  assert (JP : join_pre hw ow bs p q).
  { constructor; rewrite ?Dp, ?Hbs'; auto.
    - rewrite <- Hbs'. exact Hh.
    - assert (Hm : (nnz q * nnz p <= nnz x * nnz y)%nat) by nia.
      apply Nat2Z.inj_le in Hm. rewrite !Nat2Z.inj_mul in Hm. lia. }
  destruct (intersect_stage_spec hw ow bs p q JP) as (Mt & HM & Hi').
  rewrite Hi' in Hi. injection Hi as <- <- <-.
  exists p, q, Mt. split; [exact Hr|].
  split.
  { intros c0. rewrite (roles_in sd s _ _ p q c0 Ox' Oy' Hr).
    rewrite (prep_in sd s comm x c0 Ox), (prep_in sd s comm y c0 Oy). reflexivity. }
  split; [exact Op|]. split; [exact Oq|].
  split; [exact HM|]. unfold assemble. cbn [indices values coalesced dtype].
  split; [reflexivity|]. split; [|split; reflexivity].
  rewrite (index_select_map _ fst), (index_select_map _ snd), combine_map, map_map.
  reflexivity.
Qed.

(** ** Counting matched pairs *)

Lemma count_occ_concat_repeat (l : list (list Z)) (h : list Z -> nat) (c : list Z) :
  count_occ coord_dec (concat (map (fun a => repeat a (h a)) l)) c = (count_occ coord_dec l c * h c)%nat.
Proof.
  induction l as [|a l IH]; [reflexivity|]. cbn [map concat]. rewrite count_occ_app, IH.
  simpl. destruct (coord_dec a c) as [->|Hne].
  - rewrite count_occ_repeat_eq by reflexivity. lia.
  - rewrite count_occ_repeat_neq by (intros E; apply Hne; symmetry; exact E). lia.
Qed.

Lemma filter_map_length {A B} (f : B -> bool) (g : A -> B) (l : list A) :
  length (filter f (map g l)) = length (filter (fun a => f (g a)) l).
Proof. induction l as [|a l IH]; simpl; [reflexivity|]. destruct (f (g a)); simpl; lia. Qed.

Lemma count_occ_filter_seq (l : list (list Z)) (c : list Z) :
  count_occ coord_dec l c =
  length (filter (fun j => if coord_dec (nth j l []) c then true else false) (seq 0 (length l))).
Proof.
  induction l as [|a l IH]; [reflexivity|].
  cbn [length seq]. rewrite <- seq_shift. cbn [filter nth].
  destruct (coord_dec a c) as [->|Hne].
  - rewrite count_occ_cons_eq by reflexivity. cbn [length]. rewrite filter_map_length, IH.
    reflexivity.
  - rewrite count_occ_cons_neq by exact Hne. rewrite filter_map_length, IH. reflexivity.
Qed.

Lemma match_list_length (L : list nat) (l : list (list Z)) (c : list Z) :
  NoDup L -> (forall j, In j L <-> (j < length l)%nat /\ nth j l [] = c) ->
  length L = count_occ coord_dec l c.
Proof.
  intros Hnd Hin. rewrite count_occ_filter_seq. apply Permutation_length, NoDup_Permutation.
  - exact Hnd.
  - apply NoDup_filter, seq_NoDup.
  - intros j. rewrite Hin, filter_In, in_seq.
    destruct (coord_dec (nth j l []) c) as [E|E]; split; intros [H1 H2]; (split; [lia|]);
      try reflexivity; try exact E; congruence.
Qed.

Lemma pairs_indices (sc pc : list (list Z)) (Mt : nat -> list nat) :
  (forall k, (k < length sc)%nat ->
     NoDup (Mt k) /\ forall j, In j (Mt k) <-> (j < length pc)%nat /\ nth j pc [] = nth k sc []) ->
  map (fun ij => nth (fst ij) sc []) (concat (map (fun k => map (fun j => (k, j)) (Mt k)) (seq 0 (length sc))))
  = concat (map (fun a => repeat a (count_occ coord_dec pc a)) sc).
Proof.
  intros HM. rewrite concat_map, map_map, (map_as_seq _ sc []). f_equal.
  apply map_ext_in. intros k Hk. apply in_seq in Hk. rewrite map_map. cbn [fst].
  rewrite map_const. f_equal. destruct (HM k ltac:(lia)) as [Hnd Hin].
  apply match_list_length; assumption.
Qed.

Lemma pairs_in (Mt : nat -> list nat) (a n i j : nat) :
  In (i, j) (concat (map (fun k => map (fun j => (k, j)) (Mt k)) (seq a n))) <->
  (a <= i < a + n)%nat /\ In j (Mt i).
Proof.
  rewrite in_concat. split.
  - intros (L & HL & Hij). apply in_map_iff in HL as (k & <- & Hk). apply in_seq in Hk.
    apply in_map_iff in Hij as (j' & E & Hj'). injection E as <- <-. auto.
  - intros [Hi Hj]. exists (map (fun j => (i, j)) (Mt i)). split.
    + apply in_map_iff. exists i. split; [reflexivity|]. apply in_seq. exact Hi.
    + apply in_map_iff. exists j. auto.
Qed.

Lemma pairs_nodup (Mt : nat -> list nat) (a n : nat) :
  (forall k, (a <= k < a + n)%nat -> NoDup (Mt k)) ->
  NoDup (concat (map (fun k => map (fun j => (k, j)) (Mt k)) (seq a n))).
Proof.
  revert a. induction n as [|n IH]; intros a HM; [constructor|].
  cbn [seq map concat]. apply NoDup_app.
  - apply NoDup_map_NoDup_ForallPairs; [|apply HM; lia].
    intros j1 j2 _ _ E. injection E as E. exact E.
  - apply IH. intros k Hk. apply HM. lia.
  - intros [i j] H1 H2. apply in_map_iff in H1 as (j' & E & _). injection E as <- _.
    apply pairs_in in H2. lia.
Qed.

Lemma in_concat_repeat (l : list (list Z)) (h : list Z -> nat) (c : list Z) :
  In c (concat (map (fun a => repeat a (h a)) l)) -> In c l.
Proof.
  rewrite in_concat. intros (L & HL & Hc). apply in_map_iff in HL as (a & <- & Ha).
  apply repeat_spec in Hc. subst. exact Ha.
Qed.

Lemma sorted_concat_repeat (R : list Z -> list Z -> Prop) (l : list (list Z)) (h : list Z -> nat) :
  StronglySorted R l -> (forall a, (h a <= 1)%nat) ->
  StronglySorted R (concat (map (fun a => repeat a (h a)) l)).
Proof.
  intros Hs Hh. induction Hs as [|a l Hs IH Hf]; [constructor|].
  cbn [map concat]. specialize (Hh a). destruct (h a) as [|[|m]]; [exact IH| |lia].
  simpl. constructor; [exact IH|]. rewrite Forall_forall in Hf |- *.
  intros b Hb. apply Hf, (in_concat_repeat l h), Hb.
Qed.

Lemma sorted_lexlt_nodup (l : list (list Z)) : StronglySorted lexlt l -> NoDup l.
Proof.
  induction 1 as [|a l Hs IH Hf]; constructor; [|exact IH].
  intros Ha. rewrite Forall_forall in Hf. exact (lexlt_irrefl_neq a a (Hf a Ha) eq_refl).
Qed.

Lemma coalesce_dtype (t : @sparse V D) : dtype (coalesce t) = dtype t.
Proof. unfold coalesce. destruct (coalesced t); reflexivity. Qed.

(** ** The claims on the entry point *)


(** C2. On valid inputs, whenever the entry point succeeds, its rows are
    the matched pairs [(i, j)] (source nonzero [i], probe nonzero [j] with
    the same coordinate), each pair exactly once, in source order: the row
    of pair [(i, j)] has the index column [source.indices[i]] and the value
    [op(source.values[i], probe.values[j])] cast to the dtype of [res]. *)
Theorem values_correct (x y : @sparse V D) (comm : bool) (res0 r : @sparse V D) :
  valid x -> valid y -> nnz_fits x -> nnz_fits y ->
  kernel_out x y comm res0 = (r, inr tt) ->
  exists (p q : @sparse V D) (P : list (nat * nat)),
    select_roles (prep comm x) (prep comm y) = inr (p, q) /\
    NoDup P /\
    (forall i j, In (i, j) P <->
       (i < nnz q)%nat /\ (j < nnz p)%nat /\ nth j (indices p) [] = nth i (indices q) []) /\
    indices r = map (fun ij => nth (fst ij) (indices q) []) P /\
    values r = map (fun ij => vcast (dtype res0)
                                (apply_op (nth (fst ij) (values q) vzero)
                                          (nth (snd ij) (values p) vzero))) P.
Proof.
  intros Vx Vy Fx Fy Hrun.
  destruct (kernel_out_spec x y comm res0 r Vx Vy Fx Fy Hrun)
    as (p & q & Mt & Hr & _ & Op & Oq & HM & Hidx & Hval & _ & _).
  exists p, q, (concat (map (fun k => map (fun j => (k, j)) (Mt k)) (seq 0 (nnz q)))).
  split; [exact Hr|]. split; [|split; [|split; assumption]].
  - apply pairs_nodup. intros k Hk. apply HM. lia.
  - intros i j. rewrite pairs_in. split.
    + intros [Hi Hj]. apply HM in Hj; [|lia]. destruct Hj. repeat split; auto; lia.
    + intros (Hi & Hj & Hc). split; [lia|]. apply HM; auto.
Qed.

(** C3 (amended). On valid inputs, whenever the entry point succeeds: for
    a commutative op the result's coalesced flag is [x.coalesced &&
    y.coalesced]; for a non-commutative op it is always set, the inputs
    having been coalesced; and whenever it is set the result's coordinates
    are strictly increasing in lexicographic order, hence pairwise
    distinct. *)
Theorem coalesced_flag_correct (x y : @sparse V D) (comm : bool) (res0 r : @sparse V D) :
  valid x -> valid y -> nnz_fits x -> nnz_fits y ->
  kernel_out x y comm res0 = (r, inr tt) ->
  (comm = true -> coalesced r = coalesced x && coalesced y) /\
  (comm = false -> coalesced r = true) /\
  (coalesced r = true -> StronglySorted lexlt (indices r) /\ NoDup (indices r)).
Proof.
  intros Vx Vy Fx Fy Hrun.
  destruct (kernel_out_spec x y comm res0 r Vx Vy Fx Fy Hrun)
    as (p & q & Mt & Hr & _ & Op & Oq & HM & Hidx & _ & Hflag & _).
  pose proof (select_roles_flag _ _ p q Hr) as Hf. rewrite <- Hflag in Hf.
  split; [|split].
  - intros ->. exact Hf.
  - intros ->. unfold prep in Hf. rewrite !coalesce_flag in Hf. exact Hf.
  - intros Hc. rewrite Hc in Hflag. symmetry in Hflag. apply andb_true_iff in Hflag as [Hq Hp].
    destruct Op as [_ _ Sp _ _]. destruct Oq as [_ _ Sq _ _].
    unfold nnz in *. rewrite (pairs_indices (indices q) (indices p) Mt HM) in Hidx.
    assert (Hs : StronglySorted lexlt (indices r)).
    { rewrite Hidx. apply sorted_concat_repeat; [exact (Sq Hq)|].
      intros a. apply NoDup_count_occ, sorted_lexlt_nodup, Sp, Hp. }
    split; [exact Hs|]. apply sorted_lexlt_nodup, Hs.
Qed.

(** C7. The entry point raises [PreconditionFailed] when the inputs are
    not both sparse with equal dimensionality, equal [sparse_dim] and
    equal sparse shapes, and [CastFailed] when the promoted dtype cannot
    be cast to the dtype of [res]; every error leaves [res] as it was. *)
Theorem kernel_out_errors (x y : @sparse V D) (comm : bool) (res0 : @sparse V D) :
  (~ (is_sparse x = true /\ is_sparse y = true /\ length (sizes x) = length (sizes y) /\
      sparse_dim x = sparse_dim y /\
      firstn (sparse_dim x) (sizes x) = firstn (sparse_dim y) (sizes y)) ->
   kernel_out x y comm res0 = (res0, inl PreconditionFailed)) /\
  (forall bs,
   is_sparse x = true /\ is_sparse y = true /\ length (sizes x) = length (sizes y) /\
   sparse_dim x = sparse_dim y /\
   firstn (sparse_dim x) (sizes x) = firstn (sparse_dim y) (sizes y) ->
   infer_size (sizes x) (sizes y) = Some bs ->
   canCast (result_type (dtype x) (dtype y)) (dtype res0) = false ->
   kernel_out x y comm res0 = (res0, inl CastFailed)) /\
  (forall r e, kernel_out x y comm res0 = (r, inl e) -> r = res0).
Proof.
  split; [|split].
  - intros Hn. destruct (precondition x y) eqn:Hpre.
    + exfalso. apply Hn, precondition_iff, Hpre.
    + unfold kernel_out, bind, check, lift. rewrite Hpre. reflexivity.
  - intros bs Hpre Hbs Hc. apply precondition_iff in Hpre.
    unfold kernel_out, bind, check, lift, ret. rewrite Hpre, Hbs.
    destruct (select_widths bs (sparse_dim x) (Z.of_nat (nnz x)) (Z.of_nat (nnz y))) as [hw ow].
    unfold kernel_impl, bind, check, get, lift. rewrite Hc. reflexivity.
  - intros r e. apply kernel_out_error_state.
Qed.

(** C10. For a non-commutative op, the kernel is the commutative kernel on
    the coalesced forms of both inputs, role selection and all later stages
    included; so a successful run always sets the coalesced flag, whatever
    the flags of [x] and [y]. *)
Theorem noncommutative_coalesces (x y : @sparse V D) (res0 r : @sparse V D) :
  (forall hw ow bs (s : @sparse V D),
     kernel_impl hw ow x y bs false s = kernel_impl hw ow (coalesce x) (coalesce y) bs true s) /\
  (kernel_out x y false res0 = (r, inr tt) -> coalesced r = true).
Proof.
  split.
  - intros hw ow bs s. unfold kernel_impl, prep. rewrite !coalesce_dtype. reflexivity.
  - intros Hrun.
    destruct (kernel_out_success x y false res0 r Hrun)
      as (bs & hw & ow & p & q & a & b & c & _ & _ & _ & _ & Hr & _ & ->).
    unfold assemble. cbn [coalesced]. rewrite (select_roles_flag _ _ p q Hr).
    unfold prep. rewrite !coalesce_flag. reflexivity.
Qed.

End Proofs.

(** * Instances on concrete inputs *)

Ltac solve_valid :=
  constructor;
  [ reflexivity
  | repeat constructor; lia
  | reflexivity
  | first [ intros Hc; discriminate Hc | intros _; repeat constructor ]
  | repeat constructor; lia
  | apply Z.leb_le; vm_compute; reflexivity ].

Ltac solve_fits := apply Z.leb_le; vm_compute; reflexivity.



(** C2 on the scenario of the spec. *)
Lemma values_correct_witness :
  valid ex_x /\ valid ex_y /\ nnz_fits ex_x /\ nnz_fits ex_y /\
  kernel_out ex_x ex_y true empty_res = (ex_r, inr tt) /\
  exists (p q : @sparse Z ScalarType) (P : list (nat * nat)),
    select_roles (prep true ex_x) (prep true ex_y) = inr (p, q) /\ NoDup P /\
    values ex_r = map (fun ij => vcast (dtype empty_res)
                                   (apply_op (nth (fst ij) (values q) vzero)
                                             (nth (snd ij) (values p) vzero))) P.
Proof.
  assert (Hx : valid ex_x) by solve_valid. assert (Hy : valid ex_y) by solve_valid.
  assert (Fx : nnz_fits ex_x) by solve_fits. assert (Fy : nnz_fits ex_y) by solve_fits.
  assert (Hrun : kernel_out ex_x ex_y true empty_res = (ex_r, inr tt)) by (vm_compute; reflexivity).
  refine (conj Hx (conj Hy (conj Fx (conj Fy (conj Hrun _))))).
  destruct (values_correct ex_x ex_y true empty_res ex_r Hx Hy Fx Fy Hrun)
    as (p & q & P & Hr & Hnd & _ & _ & Hv).
  exists p, q, P. split; [exact Hr|]. split; [exact Hnd|exact Hv].
Defined.

(** C3 on coalesced inputs: the result is coalesced, and its coordinates
    are strictly increasing. *)
Lemma coalesced_flag_correct_witness :
  valid ex_x /\ valid long_y /\ nnz_fits ex_x /\ nnz_fits long_y /\
  kernel_out ex_x long_y true empty_res = (ex_r2, inr tt) /\
  coalesced ex_r2 = coalesced ex_x && coalesced long_y /\
  StronglySorted lexlt (indices ex_r2) /\ NoDup (indices ex_r2).
Proof.
  assert (Hx : valid ex_x) by solve_valid. assert (Hy : valid long_y) by solve_valid.
  assert (Fx : nnz_fits ex_x) by solve_fits. assert (Fy : nnz_fits long_y) by solve_fits.
  assert (Hrun : kernel_out ex_x long_y true empty_res = (ex_r2, inr tt)) by (vm_compute; reflexivity).
  refine (conj Hx (conj Hy (conj Fx (conj Fy (conj Hrun _))))).
  destruct (coalesced_flag_correct ex_x long_y true empty_res ex_r2 Hx Hy Fx Fy Hrun)
    as (Hc & _ & Hs).
  split; [exact (Hc eq_refl)|]. exact (Hs eq_refl).
Defined.

(** C3 as stated fails: for a non-commutative op, the uncoalesced valid
    inputs [pair_x] and [dup_y] give a result whose coalesced flag is set. *)
Lemma coalesced_flag_counterexample :
  valid pair_x /\ valid dup_y /\ nnz_fits pair_x /\ nnz_fits dup_y /\
  coalesced pair_x = false /\ coalesced dup_y = false /\
  snd (kernel_out pair_x dup_y false empty_res) = inr tt /\
  coalesced (fst (kernel_out pair_x dup_y false empty_res)) = true.
Proof.
  split; [solve_valid|]. split; [solve_valid|]. split; [solve_fits|]. split; [solve_fits|].
  split; [reflexivity|]. split; [reflexivity|].
  split; vm_compute; reflexivity.
Qed.

(** C4 on the coalesced [ex_x]: its hashes are kept, with the identity
    permutation. *)
Lemma hash_perfect_and_monotone_witness :
  sparse_dim ex_x = 1%nat /\ prod (firstn 1 [6]) <= max_of W32 /\ coalesced ex_x = true /\
  Forall (in_range (firstn 1 [6])) (indices ex_x) /\ StronglySorted lexlt (indices ex_x) /\
  sort_stage ex_x (map (hash_of W32 (hash_coeffs W32 [6] (sparse_dim ex_x))) (indices ex_x))
  = (map (hash_of W32 (hash_coeffs W32 [6] (sparse_dim ex_x))) (indices ex_x),
     map Z.of_nat (seq 0 (length (map (hash_of W32 (hash_coeffs W32 [6] (sparse_dim ex_x)))
                                      (indices ex_x))))).
Proof.
  assert (Hd : sparse_dim ex_x = 1%nat) by reflexivity.
  assert (Hp : prod (firstn 1 [6]) <= max_of W32) by (apply Z.leb_le; vm_compute; reflexivity).
  assert (Hc : coalesced ex_x = true) by reflexivity.
  assert (Hr : Forall (in_range (firstn 1 [6])) (indices ex_x)) by (repeat constructor; lia).
  assert (Hs : StronglySorted lexlt (indices ex_x)) by (repeat constructor).
  refine (conj Hd (conj Hp (conj Hc (conj Hr (conj Hs _))))).
  destruct (proj2 (proj2 (hash_perfect_and_monotone [6] 1)) W32 ex_x Hd Hp Hc Hr Hs)
    as (_ & _ & E).
  exact E.
Defined.

(** C5 on [[1; 2; 2; 2; 5]]: the lower bound of [2] is 1, its upper bound
    4. *)
Lemma find_bound_correct_witness :
  Sorted Z.le [1; 2; 2; 2; 5]%Z /\ Z.of_nat (length [1; 2; 2; 2; 5]%Z) <= INT_MAX /\
  (forall i, (i < find_bound true [1; 2; 2; 2; 5]%Z 2)%nat -> nth i [1; 2; 2; 2; 5]%Z 0 < 2) /\
  (forall i, (i < find_bound false [1; 2; 2; 2; 5]%Z 2)%nat -> nth i [1; 2; 2; 2; 5]%Z 0 <= 2).
Proof.
  assert (Hs : Sorted Z.le [1; 2; 2; 2; 5]%Z) by (repeat constructor; lia).
  assert (Hl : Z.of_nat (length [1; 2; 2; 2; 5]%Z) <= INT_MAX) by (apply Z.leb_le; reflexivity).
  refine (conj Hs (conj Hl _)).
  destruct (proj1 (find_bound_correct [1; 2; 2; 2; 5]%Z Hs Hl) 2) as (_ & L & _ & _ & U & _).
  exact (conj L U).
Defined.

(** C6 fails on valid inputs: [big_x] and [big_y] share no coordinate,
    but [std::accumulate] multiplies the sparse sizes in an [int], the
    product [2^32] becomes 0, and [larger._nnz() / 0] divides by zero
    instead of returning an empty result.  The empty inputs of sparse shape
    [[0]] divide by zero too. *)
Theorem empty_intersection_crashes :
  valid big_x /\ valid big_y /\ nnz_fits big_x /\ nnz_fits big_y /\
  (forall c, In c (indices big_x) -> ~ In c (indices big_y)) /\
  kernel_out big_x big_y true empty_res = (empty_res, inl DivisionByZero) /\
  valid empty_x /\
  kernel_out empty_x empty_x true empty_res = (empty_res, inl DivisionByZero).
Proof.
  split; [solve_valid|]. split; [solve_valid|]. split; [solve_fits|]. split; [solve_fits|].
  split.
  - intros c Hx Hy. destruct Hx as [<-|[]]. destruct Hy as [E|[]]. discriminate E.
  - split; [vm_compute; reflexivity|]. split; [solve_valid|]. vm_compute. reflexivity.
Qed.

(** C8 on the scenario of the spec: the two matches of the source
    coordinate [2] are written to slots 0 and 1. *)
Lemma gather_slots_partition_witness :
  join_pre W32 W32 [6] ex_x ex_y /\
  sort_stage ex_x (map (hash_of W32 (hash_coeffs W32 [6] (sparse_dim ex_x))) (indices ex_x))
    = ([0; 2; 4], [0; 1; 2]) /\
  concat (all_task_slots W32
            (map fst (map (join_one W32 (hash_coeffs W32 [6] (sparse_dim ex_x)) [0; 2; 4])
                          (indices ex_y)))
            (cumsum W32 (map fst (map (join_one W32 (hash_coeffs W32 [6] (sparse_dim ex_x))
                                                  [0; 2; 4]) (indices ex_y)))))
  = [0%nat; 1%nat].
Proof.
  assert (JP : join_pre W32 W32 [6] ex_x ex_y).
  { constructor.
    - repeat constructor; lia.
    - repeat constructor; lia.
    - apply Z.leb_le; vm_compute; reflexivity.
    - intros _. repeat constructor.
    - apply Z.leb_le; reflexivity.
    - apply Z.leb_le; reflexivity.
    - apply Z.leb_le; vm_compute; reflexivity. }
  assert (Hs : sort_stage ex_x (map (hash_of W32 (hash_coeffs W32 [6] (sparse_dim ex_x)))
                                    (indices ex_x)) = ([0; 2; 4], [0; 1; 2]))
    by (vm_compute; reflexivity).
  refine (conj JP (conj Hs _)).
  destruct (gather_slots_partition W32 W32 [6] ex_x ex_y [0; 2; 4] [0; 1; 2] JP Hs) as (E & _).
  refine (eq_trans E _). vm_compute. reflexivity.
Defined.

(** C7 on concrete inputs: an input of another dimensionality, and a
    [float] input with a [long] output. *)
Lemma kernel_out_errors_witness :
  kernel_out ex_x hybrid_y true empty_res = (empty_res, inl PreconditionFailed) /\
  kernel_out float_x long_y true empty_res = (empty_res, inl CastFailed).
Proof.
  split.
  - apply (proj1 (kernel_out_errors ex_x hybrid_y true empty_res)).
    intros (_ & _ & Hl & _). discriminate Hl.
  - apply (proj1 (proj2 (kernel_out_errors float_x long_y true empty_res)) [6]).
    + repeat split.
    + reflexivity.
    + reflexivity.
Defined.

(** C9 fails: the [int64_t] products wrap around.  For inputs with
    [2^32] and [2^31] nonzeros the product [2^63] wraps to [-2^63] and
    32-bit offsets are chosen; for a sparse shape [[2^32; 2^32]] the
    product [2^64] wraps to 0 and 32-bit hashes are chosen. *)
Theorem width_selection_overflow :
  select_widths [1] 1 (2 ^ 32) (2 ^ 31) = (W32, W32) /\ 2 ^ 32 * 2 ^ 31 > INT_MAX /\
  select_widths [4294967296; 4294967296] 2 1 1 = (W32, W32) /\
  prod (firstn 2 [4294967296; 4294967296]) > INT_MAX.
Proof. split; [vm_compute; reflexivity|]. split; [vm_compute; reflexivity|].
  split; vm_compute; reflexivity. Qed.

(** C10 on [pair_x] and [dup_y], both uncoalesced: the non-commutative
    product is coalesced. *)
Lemma noncommutative_coalesces_witness :
  kernel_out pair_x dup_y false empty_res = (pair_r, inr tt) /\ coalesced pair_r = true.
Proof.
  assert (Hrun : kernel_out pair_x dup_y false empty_res = (pair_r, inr tt))
    by (vm_compute; reflexivity).
  exact (conj Hrun (proj2 (noncommutative_coalesces pair_x dup_y empty_res pair_r) Hrun)).
Defined.

(** * Further properties of the kernel *)

Section Extras.
Context {V D : Type} {HD : DTypes D} {HV : Values V D} {HB : BinaryOp V}.

(** ** [find_bound] never leaves its range *)

Lemma find_bound_loop_le (is_lower : bool) (l : list Z) (value : Z) (n : nat) :
  forall fuel first count, (first + count <= n)%nat ->
  (find_bound_loop is_lower l value fuel first count <= n)%nat.
Proof.
  induction fuel as [|fuel IH]; intros first count Hb; cbn [find_bound_loop]; [lia|].
  destruct (0 <? count)%nat eqn:Hc; [|lia].
  apply Nat.ltb_lt in Hc.
  assert (Hs : (Nat.div count 2 < count)%nat) by (apply Nat.div_lt; lia).
  cbv zeta.
  match goal with |- ((if ?b then _ else _) <= _)%nat => destruct b end;
    apply IH; lia.
Qed.

(** ** The hash is onto the linear offsets *)

Lemma hash_math_onto (s : list Z) :
  Forall (fun d => 0 <= d) s ->
  forall v, 0 <= v < prod s -> exists c, in_range s c /\ hash_math (contiguous_strides s) c = v.
Proof.
  induction 1 as [|s0 s Hs0 Hs IH]; intros v Hv.
  - exists []. split; [constructor|]. unfold prod in Hv. simpl in Hv |- *. lia.
  - rewrite prod_cons in Hv.
    assert (HP : 0 <= prod s) by (apply prod_nonneg; exact Hs).
    assert (HP' : 0 < prod s) by nia.
    destruct (IH (v mod prod s) ltac:(apply Z.mod_pos_bound; lia)) as (c & Hc & Eh).
    exists (v / prod s :: c). split.
    + constructor; [|exact Hc]. split; [apply Z.div_pos; lia|].
      apply Z.div_lt_upper_bound; nia.
    + rewrite hash_math_strides_cons, Eh.
      pose proof (Z.div_mod v (prod s) ltac:(lia)). nia.
Qed.

(** ** The [int] accumulator *)

Lemma fold_wrap_prod_w (w : width) (l : list Z) (a : Z) :
  fold_left (fun acc d => wrap w (acc * d)) l (wrap w a) = wrap w (a * prod l).
Proof.
  revert a. induction l as [|d l IH]; intros a; cbn [fold_left].
  - rewrite Z.mul_1_r. reflexivity.
  - rewrite wrap_mul_l, IH, prod_cons. f_equal. ring.
Qed.

(** ** Prefix sums *)

Lemma cumsum_from_spec (ow : width) (counts : list Z) :
  Forall (fun c => 0 <= c) counts ->
  forall acc, 0 <= acc -> acc + fold_right Z.add 0 counts <= max_of ow ->
  length (cumsum_from ow acc counts) = length counts /\
  (forall k, (k < length counts)%nat ->
     nth k (cumsum_from ow acc counts) 0 = acc + fold_right Z.add 0 (firstn (S k) counts)) /\
  (counts <> [] -> last (cumsum_from ow acc counts) 0 = acc + fold_right Z.add 0 counts).
Proof.
  induction 1 as [|c r Hc Hr IH]; intros acc Ha Hb.
  - split; [reflexivity|]. split; [intros k Hk; simpl in Hk; lia|].
    intros H; contradiction H; reflexivity.
  - simpl in Hb.
    assert (Hsum : 0 <= fold_right Z.add 0 r) by (clear -Hr; induction Hr; simpl; lia).
    assert (Ea : wrap ow (acc + wrap ow c) = acc + c).
    { rewrite (wrap_nonneg ow c) by lia. apply wrap_nonneg. lia. }
    destruct (IH (acc + c) ltac:(lia) ltac:(lia)) as (IH1 & IH2 & IH3).
    cbn [cumsum_from]. rewrite Ea.
    split; [simpl; rewrite IH1; reflexivity|]. split.
    + intros [|k] Hk.
      * simpl. lia.
      * change (nth k (cumsum_from ow (acc + c) r) 0
                = acc + fold_right Z.add 0 (c :: firstn (S k) r)).
        rewrite IH2 by (simpl in Hk; lia). simpl. lia.
    + intros _. destruct r as [|c' r'].
      * simpl. lia.
      * change (last (cumsum_from ow (acc + c) (c' :: r')) 0
                = acc + fold_right Z.add 0 (c :: c' :: r')).
        rewrite IH3 by discriminate. simpl. lia.
Qed.

(** ** The gather stage *)

Lemma nth_map_lt {A B} (f : A -> B) (l : list A) (t : nat) (d : A) (d' : B) :
  (t < length l)%nat -> nth t (map f l) d' = f (nth t l d).
Proof.
  intros Ht. rewrite (nth_indep (map f l) d' (f d)) by (rewrite length_map; exact Ht).
  apply map_nth.
Qed.

Lemma pairs_fst_sorted (Mt : nat -> list nat) (a n : nat) :
  StronglySorted Nat.le (map fst (concat (map (fun k => map (fun j => (k, j)) (Mt k)) (seq a n)))).
Proof.
  revert a. induction n as [|n IH]; intros a; [constructor|].
  cbn [seq map concat]. rewrite map_app.
  assert (Hrest : Forall (fun i => (a < i)%nat)
            (map fst (concat (map (fun k => map (fun j => (k, j)) (Mt k)) (seq (S a) n))))).
  { apply Forall_forall. intros i Hi. apply in_map_iff in Hi as ([i' j] & <- & Hin).
    apply pairs_in in Hin. simpl. lia. }
  induction (Mt a) as [|j m IHm]; [exact (IH (S a))|].
  cbn [map app fst]. constructor; [exact IHm|].
  apply Forall_app. split.
  - apply Forall_forall. intros i Hi. rewrite map_map in Hi.
    apply in_map_iff in Hi as (j' & <- & _). simpl. lia.
  - revert Hrest. apply Forall_impl. intros i Hi. lia.
Qed.

Lemma sorted_nat_to_Z (l : list nat) : StronglySorted Nat.le l -> Sorted Z.le (map Z.of_nat l).
Proof.
  intros H. apply StronglySorted_Sorted.
  induction H as [|a l H IH Hf]; simpl; constructor; [exact IH|].
  rewrite Forall_forall in *. intros z Hz. apply in_map_iff in Hz as (b & <- & Hb).
  apply Nat2Z.inj_le, Hf, Hb.
Qed.

Lemma gather_selection (hw ow : width) (bs : list Z) (probe source : @sparse V D) :
  join_pre hw ow bs probe source ->
  exists ss sp ri,
    intersect_stage hw ow bs probe source = inr (ss, sp, ri) /\
    length sp = length ss /\ length ri = length ss /\ Sorted Z.le ss /\
    (forall t, (t < length ss)%nat ->
       0 <= nth t ss 0 < Z.of_nat (nnz source) /\ 0 <= nth t sp 0 < Z.of_nat (nnz probe) /\
       nth t ri [] = nth (Z.to_nat (nth t ss 0)) (indices source) [] /\
       nth (Z.to_nat (nth t sp 0)) (indices probe) [] = nth t ri []).
Proof.
  intros Hpre. destruct (intersect_stage_spec hw ow bs probe source Hpre) as (Mt & HM & E).
  set (L := concat (map (fun k => map (fun j => (k, j)) (Mt k)) (seq 0 (nnz source)))) in *.
  exists (map (fun p => Z.of_nat (fst p)) L), (map (fun p => Z.of_nat (snd p)) L),
         (map (fun p => nth (fst p) (indices source) []) L).
  split; [exact E|]. rewrite !length_map.
  split; [reflexivity|]. split; [reflexivity|]. split.
  - rewrite <- (map_map fst Z.of_nat). apply sorted_nat_to_Z, pairs_fst_sorted.
  - intros t Ht.
    rewrite (nth_map_lt (fun p => Z.of_nat (fst p)) L t (0%nat, 0%nat)) by exact Ht.
    rewrite (nth_map_lt (fun p => Z.of_nat (snd p)) L t (0%nat, 0%nat)) by exact Ht.
    rewrite (nth_map_lt (fun p => nth (fst p) (indices source) []) L t (0%nat, 0%nat)) by exact Ht.
    destruct (nth t L (0%nat, 0%nat)) as [k j] eqn:Ekj.
    assert (Hin : In (k, j) L) by (rewrite <- Ekj; apply nth_In; exact Ht).
    unfold L in Hin. apply pairs_in in Hin as [Hk Hj].
    destruct (HM k ltac:(lia)) as [_ HMk]. apply HMk in Hj as [Hj Hc].
    cbn [fst snd]. rewrite !Nat2Z.id. split; [lia|]. split; [lia|]. split; [reflexivity|exact Hc].
Qed.

(** ** The entry point on valid inputs *)



Lemma bcast_rev_nonneg (a b r : list Z) :
  Forall (fun d => 0 <= d) a -> Forall (fun d => 0 <= d) b -> bcast_rev a b = Some r ->
  Forall (fun d => 0 <= d) r.
Proof.
  revert b r. induction a as [|x a IH]; intros [|y b] r Ha Hb H; simpl in H.
  - injection H as <-. exact Hb.
  - injection H as <-. exact Hb.
  - injection H as <-. exact Ha.
  - destruct (bcast_dim x y) as [d|] eqn:Hd; [|discriminate H].
    destruct (bcast_rev a b) as [r'|] eqn:Hr; [|discriminate H].
    injection H as <-. inversion Ha as [|? ? Hx Ha']; inversion Hb as [|? ? Hy Hb']; subst.
    constructor.
    + unfold bcast_dim in Hd.
      destruct (x =? y); [injection Hd as <-; lia|].
      destruct (x =? 1); [injection Hd as <-; lia|].
      destruct (y =? 1); [injection Hd as <-; lia|discriminate Hd].
    + exact (IH b r' Ha' Hb' Hr).
Qed.

Lemma infer_size_nonneg (a b bs : list Z) :
  Forall (fun d => 0 <= d) a -> Forall (fun d => 0 <= d) b -> infer_size a b = Some bs ->
  Forall (fun d => 0 <= d) bs.
Proof.
  intros Ha Hb. unfold infer_size.
  destruct (bcast_rev (rev a) (rev b)) as [r|] eqn:Hr; [|discriminate].
  simpl. intros H; injection H as <-. apply Forall_rev.
  exact (bcast_rev_nonneg _ _ r (Forall_rev Ha) (Forall_rev Hb) Hr).
Qed.

Lemma kernel_out_shape (x y : @sparse V D) (comm : bool) (res0 r : @sparse V D) :
  kernel_out x y comm res0 = (r, inr tt) ->
  exists bs p q,
    precondition x y = true /\ infer_size (sizes x) (sizes y) = Some bs /\
    select_roles (prep comm x) (prep comm y) = inr (p, q) /\
    sizes r = bs /\ sparse_dim r = sparse_dim q /\ is_sparse r = is_sparse res0.
Proof.
  intros Hrun. destruct (kernel_out_success x y comm res0 r Hrun)
    as (bs & hw & ow & p & q & a & b & c & Hpre & Hbs & _ & _ & Hr & _ & ->).
  exists bs, p, q. unfold assemble. cbn [sizes sparse_dim is_sparse].
  repeat split; assumption.
Qed.

Lemma roles_setup (x y : @sparse V D) (comm : bool) (bs : list Z) (hw ow : width)
    (p q : @sparse V D) :
  valid x -> valid y -> nnz_fits x -> nnz_fits y ->
  precondition x y = true -> infer_size (sizes x) (sizes y) = Some bs ->
  select_widths bs (sparse_dim x) (Z.of_nat (nnz x)) (Z.of_nat (nnz y)) = (hw, ow) ->
  select_roles (prep comm x) (prep comm y) = inr (p, q) ->
  firstn (sparse_dim x) bs = firstn (sparse_dim x) (sizes x) /\
  operand_ok (sparse_dim x) (firstn (sparse_dim x) (sizes x)) p /\
  operand_ok (sparse_dim x) (firstn (sparse_dim x) (sizes x)) q /\
  (nnz p * nnz q <= nnz x * nnz y)%nat /\
  join_pre hw ow bs p q.
Proof.
  intros Vx Vy Fx Fy Hpre Hbs Hw Hr.
  apply precondition_iff in Hpre as (Sx & Sy & Hlen & Hsd & Hpf).
  set (sd := sparse_dim x) in *. set (s := firstn sd (sizes x)) in *.
  rewrite <- Hsd in Hpf.
  assert (Hbs' : firstn sd bs = s) by exact (infer_size_prefix _ _ bs sd Hlen Hpf Hbs).
  destruct Vx as [_ Rx Cx Vvx Zx Nx]. destruct Vy as [_ Ry Cy Vvy Zy Ny].
  assert (Ox : operand_ok sd s x) by (constructor; auto).
  assert (Oy : operand_ok sd s y).
  { constructor; auto. rewrite <- Hsd in Ry. fold sd in Ry. rewrite <- Hpf in Ry. exact Ry. }
  destruct (operand_ok_prep sd s comm x Ox) as [Ox' Hnx].
  destruct (operand_ok_prep sd s comm y Oy) as [Oy' Hny].
  destruct (select_roles_ok sd s _ _ p q Ox' Oy' Hr) as (Op & Oq & Hnn).
  assert (Hprod : 0 <= prod (firstn sd bs) <= max_of W64).
  { rewrite Hbs'. split; [|exact Nx]. apply prod_nonneg. rewrite Forall_forall in Zx |- *.
    intros d Hd. apply Zx, (in_firstn_in sd), Hd. }
  destruct (select_widths_fit bs sd (nnz x) (nnz y) hw ow Hprod Fx Fy Hw) as [Hh Ho].
  pose proof Op as Op'. pose proof Oq as Oq'.
  destruct Op' as [Dp Rp Sp Np Vp]. destruct Oq' as [Dq Rq Sq Nq Vq].
  split; [exact Hbs'|]. split; [exact Op|]. split; [exact Oq|]. split; [nia|].
  constructor; rewrite ?Dp, ?Hbs'; auto.
  - rewrite <- Hbs'. exact Hh.
  - assert (Hm : (nnz q * nnz p <= nnz x * nnz y)%nat) by nia.
    apply Nat2Z.inj_le in Hm. rewrite !Nat2Z.inj_mul in Hm. lia.
Qed.

Lemma result_coords (x y : @sparse V D) (comm : bool) (res0 r : @sparse V D) :
  valid x -> valid y -> nnz_fits x -> nnz_fits y ->
  kernel_out x y comm res0 = (r, inr tt) ->
  forall c, In c (indices r) <-> In c (indices x) /\ In c (indices y).
Proof.
  intros Vx Vy Fx Fy Hrun.
  destruct (kernel_out_spec x y comm res0 r Vx Vy Fx Fy Hrun)
    as (p & q & Mt & Hr & Hin & Op & Oq & HM & Hidx & _ & _ & _).
  unfold nnz in *.
  rewrite (pairs_indices (indices q) (indices p) Mt HM) in Hidx.
  intros c. rewrite <- Hin, (count_occ_In coord_dec), Hidx, count_occ_concat_repeat,
    !(count_occ_In coord_dec (indices _)). nia.
Qed.

Lemma result_sorted (x y : @sparse V D) (comm : bool) (res0 r : @sparse V D) :
  valid x -> valid y -> nnz_fits x -> nnz_fits y ->
  kernel_out x y comm res0 = (r, inr tt) -> coalesced r = true ->
  StronglySorted lexlt (indices r).
Proof.
  intros Vx Vy Fx Fy Hrun Hc.
  destruct (kernel_out_spec x y comm res0 r Vx Vy Fx Fy Hrun)
    as (p & q & Mt & Hr & _ & Op & Oq & HM & Hidx & _ & Hflag & _).
  rewrite Hc in Hflag. symmetry in Hflag. apply andb_true_iff in Hflag as [Hq Hp].
  destruct Op as [_ _ Sp _ _]. destruct Oq as [_ _ Sq _ _].
  unfold nnz in *. rewrite (pairs_indices (indices q) (indices p) Mt HM) in Hidx.
  rewrite Hidx. apply sorted_concat_repeat; [exact (Sq Hq)|].
  intros a. apply NoDup_count_occ, sorted_lexlt_nodup, Sp, Hp.
Qed.

Lemma sorted_same_elems (l1 l2 : list (list Z)) :
  StronglySorted lexlt l1 -> StronglySorted lexlt l2 ->
  (forall c, In c l1 <-> In c l2) -> l1 = l2.
Proof.
  intros H1. revert l2. induction H1 as [|a l1 H1 IH Hf1]; intros l2 H2 Hin.
  - destruct l2 as [|b l2]; [reflexivity|].
    exfalso. apply (proj2 (Hin b)). left. reflexivity.
  - destruct l2 as [|b l2].
    + exfalso. apply (proj1 (Hin a)). left. reflexivity.
    + apply StronglySorted_inv in H2 as [H2 Hf2].
      rewrite Forall_forall in Hf1, Hf2.
      assert (Eab : a = b).
      { destruct (proj1 (Hin a) (or_introl eq_refl)) as [E|Ha]; [symmetry; exact E|].
        destruct (proj2 (Hin b) (or_introl eq_refl)) as [E|Hb]; [exact E|].
        exfalso. pose proof (lex_lt_trans a b a (Hf1 b Hb) (Hf2 a Ha)) as Haa.
        rewrite lex_lt_irrefl in Haa. discriminate Haa. }
      subst b. f_equal. apply IH; [exact H2|].
      intros c. split; intros Hc.
      * destruct (proj1 (Hin c) (or_intror Hc)) as [E|E]; [|exact E].
        subst c. exfalso. pose proof (Hf1 a Hc) as Haa. unfold lexlt in Haa.
        rewrite lex_lt_irrefl in Haa. discriminate Haa.
      * destruct (proj2 (Hin c) (or_intror Hc)) as [E|E]; [|exact E].
        subst c. exfalso. pose proof (Hf2 a Hc) as Haa. unfold lexlt in Haa.
        rewrite lex_lt_irrefl in Haa. discriminate Haa.
Qed.

Lemma count_occ_le_length (l : list (list Z)) (c : list Z) :
  (count_occ coord_dec l c <= length l)%nat.
Proof. induction l as [|a l IH]; simpl; [lia|]. destruct (coord_dec a c); simpl; lia. Qed.

Lemma length_concat_repeat_le (l : list (list Z)) (h : list Z -> nat) (b : nat) :
  (forall a, (h a <= b)%nat) ->
  (length (concat (map (fun a => repeat a (h a)) l)) <= length l * b)%nat.
Proof.
  intros Hh. induction l as [|a l IH]; simpl; [lia|].
  rewrite length_app, repeat_length. specialize (Hh a). lia.
Qed.

(** ** Properties *)

(** [find_bound] returns an index of the searched range: never before its
    first element, never past its end. *)
Theorem find_bound_in_bounds (is_lower : bool) (l : list Z) (value : Z) :
  (find_bound is_lower l value <= length l)%nat.
Proof. unfold find_bound. apply find_bound_loop_le. lia. Qed.

(** When the number of elements of the sparse shape fits [hash_t], the
    hashes of the in-range coordinates lie in [0, prod) and every value of
    [0, prod) is the hash of some in-range coordinate. *)
Theorem hash_range_onto (hw : width) (bs : list Z) (sd : nat) :
  Forall (fun d => 0 <= d) (firstn sd bs) -> prod (firstn sd bs) <= max_of hw ->
  (forall c, in_range (firstn sd bs) c ->
     0 <= hash_of hw (hash_coeffs hw bs sd) c < prod (firstn sd bs)) /\
  (forall v, 0 <= v < prod (firstn sd bs) ->
     exists c, in_range (firstn sd bs) c /\ hash_of hw (hash_coeffs hw bs sd) c = v).
Proof.
  intros Hnn Hfit. unfold hash_coeffs. set (s := firstn sd bs) in *.
  split.
  - intros c Hc. rewrite (hash_of_exact hw s c Hfit Hc).
    pose proof (hash_math_range s c Hc). lia.
  - intros v Hv. destruct (hash_math_onto s Hnn v Hv) as (c & Hc & Hh).
    exists c. split; [exact Hc|]. rewrite (hash_of_exact hw s c Hfit Hc). exact Hh.
Qed.

(** [std::accumulate] of the sparse sizes with an [int] initial value is
    the product of the sizes reduced to 32 bits. *)
Theorem accumulate_int_wraps (l : list Z) : accumulate_int l = wrap W32 (prod l).
Proof.
  unfold accumulate_int. pose proof (fold_wrap_prod_w W32 l 1) as E.
  change (wrap W32 1) with 1 in E. rewrite Z.mul_1_l in E. exact E.
Qed.

(** When the total count fits [offset_t], the cumulative sum has one entry
    per source row, entry [k] is the sum of the first [k+1] counts, and
    [intersection_nnz] is the total count (0 for no source rows). *)
Theorem cumsum_prefix_sums (ow : width) (counts : list Z) :
  Forall (fun c => 0 <= c) counts -> fold_right Z.add 0 counts <= max_of ow ->
  length (cumsum ow counts) = length counts /\
  (forall k, (k < length counts)%nat ->
     nth k (cumsum ow counts) 0 = fold_right Z.add 0 (firstn (S k) counts)) /\
  intersection_nnz ow (cumsum ow counts) = fold_right Z.add 0 counts.
Proof.
  intros Hnn Hfit. unfold cumsum.
  destruct (cumsum_from_spec ow counts Hnn 0 ltac:(lia) ltac:(lia)) as (Hl & Hn & Hlast).
  split; [exact Hl|]. split; [intros k Hk; rewrite (Hn k Hk); lia|].
  unfold intersection_nnz. destruct counts as [|c r]; [reflexivity|].
  transitivity (0 + fold_right Z.add 0 (c :: r)); [|lia].
  rewrite <- Hlast by discriminate. reflexivity.
Qed.

(** Under the kernel's preconditions the gather writes three arrays of one
    length, and every selected source row and probe row is a valid row
    index of its tensor. *)
Theorem gather_in_bounds (hw ow : width) (bs : list Z) (probe source : @sparse V D) :
  join_pre hw ow bs probe source ->
  exists ss sp ri,
    intersect_stage hw ow bs probe source = inr (ss, sp, ri) /\
    length sp = length ss /\ length ri = length ss /\
    Forall (fun i => 0 <= i < Z.of_nat (nnz source)) ss /\
    Forall (fun j => 0 <= j < Z.of_nat (nnz probe)) sp.
Proof.
  intros Hpre. destruct (gather_selection hw ow bs probe source Hpre)
    as (ss & sp & ri & E & Hl1 & Hl2 & _ & Ht).
  exists ss, sp, ri. split; [exact E|]. split; [exact Hl1|]. split; [exact Hl2|].
  split; apply Forall_forall; intros v Hv; apply (In_nth _ _ 0) in Hv as (t & Hlt & <-).
  - apply (Ht t Hlt).
  - rewrite Hl1 in Hlt. apply (Ht t Hlt).
Qed.

(** Under the kernel's preconditions the selected source rows come in
    nondecreasing order, and each output coordinate is the coordinate of
    its selected source row and of its selected probe row. *)
Theorem gather_source_order (hw ow : width) (bs : list Z) (probe source : @sparse V D) :
  join_pre hw ow bs probe source ->
  exists ss sp ri,
    intersect_stage hw ow bs probe source = inr (ss, sp, ri) /\
    Sorted Z.le ss /\
    (forall t, (t < length ss)%nat ->
       nth t ri [] = nth (Z.to_nat (nth t ss 0)) (indices source) [] /\
       nth (Z.to_nat (nth t sp 0)) (indices probe) [] = nth t ri []).
Proof.
  intros Hpre. destruct (gather_selection hw ow bs probe source Hpre)
    as (ss & sp & ri & E & _ & _ & Hs & Ht).
  exists ss, sp, ri. split; [exact E|]. split; [exact Hs|].
  intros t Hlt. destruct (Ht t Hlt) as (_ & _ & H1 & H2). split; [exact H1|exact H2].
Qed.

(** Without [int64_t] overflow, 32-bit hashes are chosen exactly when the
    sparse shape has at most [INT_MAX] elements, and 32-bit offsets exactly
    when [x._nnz() * y._nnz()] is at most [INT_MAX]. *)
Theorem select_widths_exact (bs : list Z) (sd : nat) (nx ny : Z) :
  Forall (fun d => 0 <= d) (firstn sd bs) -> prod (firstn sd bs) <= max_of W64 ->
  0 <= nx -> 0 <= ny -> nx * ny <= max_of W64 ->
  select_widths bs sd nx ny =
  (if prod (firstn sd bs) <=? INT_MAX then W32 else W64,
   if nx * ny <=? INT_MAX then W32 else W64).
Proof.
  intros Hnn Hp Hx Hy Hxy.
  assert (E : fold_left (fun acc d => wrap W64 (acc * d)) (firstn sd bs) 1 = prod (firstn sd bs)).
  { pose proof (fold_wrap_prod (firstn sd bs) 1) as E.
    change (wrap W64 1) with 1 in E. rewrite Z.mul_1_l in E. rewrite E.
    apply wrap_nonneg. split; [apply prod_nonneg, Hnn|exact Hp]. }
  unfold select_widths. cbv zeta. rewrite E, (wrap_nonneg W64 (nx * ny)) by nia.
  reflexivity.
Qed.

(** A successful product of valid inputs (into a sparse output) is itself
    a valid sparse tensor: in-range coordinates, one value per row, sorted
    distinct coordinates when flagged coalesced, nonnegative sizes. *)
Theorem kernel_out_result_valid (x y : @sparse V D) (comm : bool) (res0 r : @sparse V D) :
  is_sparse res0 = true -> valid x -> valid y -> nnz_fits x -> nnz_fits y ->
  kernel_out x y comm res0 = (r, inr tt) -> valid r.
Proof.
  intros Sr Vx Vy Fx Fy Hrun.
  destruct (kernel_out_spec x y comm res0 r Vx Vy Fx Fy Hrun)
    as (p & q & Mt & Hr & _ & Op & Oq & HM & Hidx & Hval & _ & _).
  destruct (kernel_out_shape x y comm res0 r Hrun)
    as (bs & p' & q' & Hpre & Hbs & Hr' & Hsz & Hsd & Hsp).
  rewrite Hr in Hr'. injection Hr' as <- <-.
  destruct (select_widths bs (sparse_dim x) (Z.of_nat (nnz x)) (Z.of_nat (nnz y)))
    as [hw ow] eqn:Hw.
  destruct (roles_setup x y comm bs hw ow p q Vx Vy Fx Fy Hpre Hbs Hw Hr)
    as (Hpref & _ & _ & _ & _).
  pose proof Vx as Vx'. pose proof Vy as Vy'.
  destruct Vx' as [_ _ _ _ Zx Nx]. destruct Vy' as [_ _ _ _ Zy _].
  destruct Oq as [Dq Rq _ _ _].
  constructor.
  - rewrite Hsp. exact Sr.
  - rewrite Hsd, Dq, Hsz, Hpref. unfold nnz in *.
    rewrite Hidx, (pairs_indices (indices q) (indices p) Mt HM).
    apply Forall_forall. intros c Hc. apply in_concat_repeat in Hc.
    rewrite Forall_forall in Rq. apply Rq, Hc.
  - rewrite Hval, Hidx, !length_map. reflexivity.
  - intros Hc. exact (result_sorted x y comm res0 r Vx Vy Fx Fy Hrun Hc).
  - rewrite Hsz. exact (infer_size_nonneg _ _ bs Zx Zy Hbs).
  - rewrite Hsd, Dq, Hsz, Hpref. exact Nx.
Qed.

(** A successful product of valid inputs has the broadcast shape of [x]
    and [y], the sparse dimensions and sparse sizes of [x], and the dtype of
    the output tensor it was written into. *)
Theorem kernel_out_result_shape (x y : @sparse V D) (comm : bool) (res0 r : @sparse V D) :
  valid x -> valid y -> nnz_fits x -> nnz_fits y ->
  kernel_out x y comm res0 = (r, inr tt) ->
  infer_size (sizes x) (sizes y) = Some (sizes r) /\
  sparse_dim r = sparse_dim x /\
  firstn (sparse_dim r) (sizes r) = firstn (sparse_dim x) (sizes x) /\
  dtype r = dtype res0.
Proof.
  intros Vx Vy Fx Fy Hrun.
  destruct (kernel_out_spec x y comm res0 r Vx Vy Fx Fy Hrun)
    as (p & q & Mt & Hr & _ & _ & Oq & _ & _ & _ & _ & Hdt).
  destruct (kernel_out_shape x y comm res0 r Hrun)
    as (bs & p' & q' & Hpre & Hbs & Hr' & Hsz & Hsd & _).
  rewrite Hr in Hr'. injection Hr' as <- <-.
  destruct (select_widths bs (sparse_dim x) (Z.of_nat (nnz x)) (Z.of_nat (nnz y)))
    as [hw ow] eqn:Hw.
  destruct (roles_setup x y comm bs hw ow p q Vx Vy Fx Fy Hpre Hbs Hw Hr)
    as (Hpref & _ & _ & _ & _).
  destruct Oq as [Dq _ _ _ _].
  rewrite Hsz, Hsd, Dq. auto.
Qed.

(** A successful product of valid inputs has at most [x._nnz() * y._nnz()]
    rows. *)
Theorem kernel_out_nnz_bound (x y : @sparse V D) (comm : bool) (res0 r : @sparse V D) :
  valid x -> valid y -> nnz_fits x -> nnz_fits y ->
  kernel_out x y comm res0 = (r, inr tt) -> (nnz r <= nnz x * nnz y)%nat.
Proof.
  intros Vx Vy Fx Fy Hrun.
  destruct (kernel_out_spec x y comm res0 r Vx Vy Fx Fy Hrun)
    as (p & q & Mt & Hr & _ & _ & _ & HM & Hidx & _).
  destruct (kernel_out_shape x y comm res0 r Hrun)
    as (bs & p' & q' & Hpre & Hbs & Hr' & _).
  rewrite Hr in Hr'. injection Hr' as <- <-.
  destruct (select_widths bs (sparse_dim x) (Z.of_nat (nnz x)) (Z.of_nat (nnz y)))
    as [hw ow] eqn:Hw.
  destruct (roles_setup x y comm bs hw ow p q Vx Vy Fx Fy Hpre Hbs Hw Hr)
    as (_ & _ & _ & Hnn & _).
  unfold nnz in *. rewrite Hidx, (pairs_indices (indices q) (indices p) Mt HM).
  pose proof (length_concat_repeat_le (indices q) (count_occ coord_dec (indices p))
                (length (indices p)) (count_occ_le_length (indices p))) as Hl.
  nia.
Qed.

(** For coalesced valid inputs the result's coordinates do not depend on
    the order of the operands: [x * y] and [y * x] (commutative or not)
    produce the same list of coordinates. *)
Theorem kernel_out_swap_coalesced (x y : @sparse V D) (c1 c2 : bool)
    (res0 res1 r1 r2 : @sparse V D) :
  valid x -> valid y -> nnz_fits x -> nnz_fits y ->
  coalesced x = true -> coalesced y = true ->
  kernel_out x y c1 res0 = (r1, inr tt) -> kernel_out y x c2 res1 = (r2, inr tt) ->
  indices r1 = indices r2.
Proof.
  intros Vx Vy Fx Fy Cx Cy H1 H2.
  assert (Hprep : forall c (t : @sparse V D), coalesced t = true -> coalesced (prep c t) = true).
  { intros c t Ht. unfold prep. destruct c; [exact Ht|apply coalesce_flag]. }
  assert (Hflag : forall (a b res r : @sparse V D) (c : bool),
            valid a -> valid b -> nnz_fits a -> nnz_fits b ->
            coalesced a = true -> coalesced b = true ->
            kernel_out a b c res = (r, inr tt) -> coalesced r = true).
  { intros a b res r c Va Vb Fa Fb Ca Cb Hrun.
    destruct (kernel_out_spec a b c res r Va Vb Fa Fb Hrun)
      as (p & q & _ & Hr & _ & _ & _ & _ & _ & _ & Hf & _).
    rewrite Hf, (select_roles_flag _ _ p q Hr), (Hprep c a Ca), (Hprep c b Cb).
    reflexivity. }
  apply sorted_same_elems.
  - exact (result_sorted x y c1 res0 r1 Vx Vy Fx Fy H1
             (Hflag x y res0 r1 c1 Vx Vy Fx Fy Cx Cy H1)).
  - exact (result_sorted y x c2 res1 r2 Vy Vx Fy Fx H2
             (Hflag y x res1 r2 c2 Vy Vx Fy Fx Cy Cx H2)).
  - intros c. rewrite (result_coords x y c1 res0 r1 Vx Vy Fx Fy H1 c),
      (result_coords y x c2 res1 r2 Vy Vx Fy Fx H2 c). tauto.
Qed.


End Extras.

(** * Further properties on concrete inputs *)

(** The sparse shape [[2; 3]] has 6 elements; hash 4 is that of an
    in-range coordinate. *)
Lemma hash_range_onto_witness :
  exists c, in_range [2; 3] c /\ hash_of W32 (hash_coeffs W32 [2; 3] 2) c = 4.
Proof.
  assert (Hnn : Forall (fun d => 0 <= d) (firstn 2 [2; 3])) by (simpl; repeat constructor; lia).
  assert (Hfit : prod (firstn 2 [2; 3]) <= max_of W32) by (apply Z.leb_le; vm_compute; reflexivity).
  assert (Hv : 0 <= 4 < prod (firstn 2 [2; 3])) by (split; [lia|apply Z.ltb_lt; vm_compute; reflexivity]).
  exact (proj2 (hash_range_onto W32 [2; 3] 2 Hnn Hfit) 4 Hv).
Defined.

(** The counts [2; 0; 3]: prefix sums 2, 2, 5 and 5 rows in all. *)
Lemma cumsum_prefix_sums_witness :
  cumsum W32 [2; 0; 3] = [2; 2; 5] /\ intersection_nnz W32 (cumsum W32 [2; 0; 3]) = 5.
Proof.
  assert (Hnn : Forall (fun c => 0 <= c) [2; 0; 3]) by (repeat constructor; lia).
  assert (Hfit : fold_right Z.add 0 [2; 0; 3] <= max_of W32)
    by (apply Z.leb_le; vm_compute; reflexivity).
  split; [vm_compute; reflexivity|].
  exact (proj2 (proj2 (cumsum_prefix_sums W32 [2; 0; 3] Hnn Hfit))).
Defined.

Lemma join_pre_ex : join_pre W32 W32 [6] ex_x ex_y.
Proof.
  constructor.
  - repeat constructor; lia.
  - repeat constructor; lia.
  - apply Z.leb_le; vm_compute; reflexivity.
  - intros _. repeat constructor.
  - apply Z.leb_le; reflexivity.
  - apply Z.leb_le; reflexivity.
  - apply Z.leb_le; vm_compute; reflexivity.
Qed.

(** The gather of the scenario [ex_x * ex_y]. *)
Lemma gather_in_bounds_witness :
  exists ss sp ri,
    intersect_stage W32 W32 [6] ex_x ex_y = inr (ss, sp, ri) /\
    length sp = length ss /\ length ri = length ss /\
    Forall (fun i => 0 <= i < 3) ss /\ Forall (fun j => 0 <= j < 3) sp.
Proof. exact (gather_in_bounds W32 W32 [6] ex_x ex_y join_pre_ex). Defined.

Lemma gather_source_order_witness :
  exists ss sp ri,
    intersect_stage W32 W32 [6] ex_x ex_y = inr (ss, sp, ri) /\
    Sorted Z.le ss /\
    (forall t, (t < length ss)%nat ->
       nth t ri [] = nth (Z.to_nat (nth t ss 0)) (indices ex_y) [] /\
       nth (Z.to_nat (nth t sp 0)) (indices ex_x) [] = nth t ri []).
Proof. exact (gather_source_order W32 W32 [6] ex_x ex_y join_pre_ex). Defined.

(** A shape of [2^31] elements needs 64-bit hashes; 3 by 3 nonzeros fit
    32-bit offsets. *)
Lemma select_widths_exact_witness :
  select_widths [2147483648] 1 3 3 = (W64, W32).
Proof.
  assert (Hnn : Forall (fun d => 0 <= d) (firstn 1 [2147483648])) by (simpl; repeat constructor; lia).
  assert (Hp : prod (firstn 1 [2147483648]) <= max_of W64) by (apply Z.leb_le; vm_compute; reflexivity).
  assert (Hxy : 3 * 3 <= max_of W64) by (apply Z.leb_le; vm_compute; reflexivity).
  refine (eq_trans (select_widths_exact [2147483648] 1 3 3 Hnn Hp _ _ Hxy) _); [lia|lia|].
  vm_compute. reflexivity.
Defined.

(** The product [ex_r] of the scenario is valid. *)
Lemma kernel_out_result_valid_witness :
  kernel_out ex_x ex_y true empty_res = (ex_r, inr tt) /\ valid ex_r.
Proof.
  assert (Hx : valid ex_x) by solve_valid. assert (Hy : valid ex_y) by solve_valid.
  assert (Fx : nnz_fits ex_x) by solve_fits. assert (Fy : nnz_fits ex_y) by solve_fits.
  assert (Hrun : kernel_out ex_x ex_y true empty_res = (ex_r, inr tt)) by (vm_compute; reflexivity).
  exact (conj Hrun (kernel_out_result_valid ex_x ex_y true empty_res ex_r eq_refl Hx Hy Fx Fy Hrun)).
Defined.

Lemma kernel_out_result_shape_witness :
  kernel_out ex_x ex_y true empty_res = (ex_r, inr tt) /\
  infer_size (sizes ex_x) (sizes ex_y) = Some (sizes ex_r) /\
  sparse_dim ex_r = sparse_dim ex_x.
Proof.
  assert (Hx : valid ex_x) by solve_valid. assert (Hy : valid ex_y) by solve_valid.
  assert (Fx : nnz_fits ex_x) by solve_fits. assert (Fy : nnz_fits ex_y) by solve_fits.
  assert (Hrun : kernel_out ex_x ex_y true empty_res = (ex_r, inr tt)) by (vm_compute; reflexivity).
  destruct (kernel_out_result_shape ex_x ex_y true empty_res ex_r Hx Hy Fx Fy Hrun)
    as (H1 & H2 & _).
  exact (conj Hrun (conj H1 H2)).
Defined.

Lemma kernel_out_nnz_bound_witness :
  kernel_out ex_x ex_y true empty_res = (ex_r, inr tt) /\ (nnz ex_r <= 3 * 3)%nat.
Proof.
  assert (Hx : valid ex_x) by solve_valid. assert (Hy : valid ex_y) by solve_valid.
  assert (Fx : nnz_fits ex_x) by solve_fits. assert (Fy : nnz_fits ex_y) by solve_fits.
  assert (Hrun : kernel_out ex_x ex_y true empty_res = (ex_r, inr tt)) by (vm_compute; reflexivity).
  exact (conj Hrun (kernel_out_nnz_bound ex_x ex_y true empty_res ex_r Hx Hy Fx Fy Hrun)).
Defined.

(** [ex_x * long_y] and [long_y * ex_x] both give the coordinate [0]. *)
Lemma kernel_out_swap_coalesced_witness :
  snd (kernel_out ex_x long_y true empty_res) = inr tt /\
  snd (kernel_out long_y ex_x false empty_res) = inr tt /\
  indices (fst (kernel_out ex_x long_y true empty_res)) =
  indices (fst (kernel_out long_y ex_x false empty_res)).
Proof.
  assert (Hx : valid ex_x) by solve_valid. assert (Hy : valid long_y) by solve_valid.
  assert (Fx : nnz_fits ex_x) by solve_fits. assert (Fy : nnz_fits long_y) by solve_fits.
  assert (H1 : kernel_out ex_x long_y true empty_res = (ex_r2, inr tt)) by (vm_compute; reflexivity).
  assert (H2 : kernel_out long_y ex_x false empty_res = (ex_r2, inr tt)) by (vm_compute; reflexivity).
  rewrite H1, H2. cbn [fst snd].
  exact (conj eq_refl (conj eq_refl (kernel_out_swap_coalesced ex_x long_y true false empty_res
                                       empty_res ex_r2 ex_r2 Hx Hy Fx Fy eq_refl eq_refl H1 H2))).
Defined.

